(** * Field classification and masking of golog's optimized security pass

    A shallow embedding of [security_optimized.go]: the two pattern lists,
    the lazily built lookup maps, the cached classifiers [isPIIFieldFast]
    and [isSensitiveFieldFast], and the recursive masking pass
    [maskSensitiveFieldsFast], followed by the properties established
    about them. *)

From Stdlib Require Import String Ascii List Bool Arith Lia ZArith.
From stdpp Require Import base option gmap strings list fin_maps.

Local Open Scope string_scope.
Local Open Scope list_scope.

(** ** Go strings

    A Go [string] is a sequence of bytes; [len] is the byte length.  The
    functions below are those of package [strings] that the source calls. *)

Module GoStrings.

  (** [len(s)] *)
Definition len (s : string) : nat := String.length s.

  (** [s[n:]] for [n <= len(s)] *)
Fixpoint slice_from (n : nat) (s : string) : string :=
    match n, s with
    | O, _ => s
    | S n', String _ s' => slice_from n' s'
    | S _, EmptyString => EmptyString
    end.

  (** [strings.HasPrefix(s, prefix)] *)
Fixpoint HasPrefix (s prefix : string) {struct prefix} : bool :=
    match prefix with
    | EmptyString => true
    | String c prefix' =>
        match s with
        | EmptyString => false
        | String d s' => Ascii.eqb c d && HasPrefix s' prefix'
        end
    end.

  (** [strings.HasSuffix(s, suffix)]:
      [len(s) >= len(suffix) && s[len(s)-len(suffix):] == suffix] *)
Definition HasSuffix (s suffix : string) : bool :=
    Nat.leb (len suffix) (len s) && String.eqb (slice_from (len s - len suffix) s) suffix.

  (** [strings.Contains(s, substr)]: some position of [s] starts [substr]. *)
Fixpoint Contains (s substr : string) : bool :=
    HasPrefix s substr
    || match s with
       | EmptyString => false
       | String _ s' => Contains s' substr
       end.

Definition is_upper_byte (c : ascii) : bool :=
    Nat.leb 65 (nat_of_ascii c) && Nat.leb (nat_of_ascii c) 90.

Definition is_lower_byte (c : ascii) : bool :=
    Nat.leb 97 (nat_of_ascii c) && Nat.leb (nat_of_ascii c) 122.

Fixpoint map_bytes (f : ascii -> ascii) (s : string) : string :=
    match s with
    | EmptyString => EmptyString
    | String c s' => String (f c) (map_bytes f s')
    end.

  (** [strings.ToUpper] on the bytes ['a'..'z'] (all other bytes kept): this
      is what Go computes on a string of ASCII bytes, which every pattern of
      the two lists is. *)
Definition ToUpper (s : string) : string :=
    map_bytes (fun c => if is_lower_byte c then ascii_of_nat (nat_of_ascii c - 32) else c) s.

  (** The ASCII path of [strings.ToLower]: bytes ['A'..'Z'] are shifted by 32. *)
Definition ToLowerASCII (s : string) : string :=
    map_bytes (fun c => if is_upper_byte c then ascii_of_nat (nat_of_ascii c + 32) else c) s.

  (** No byte of [s] is an ASCII capital letter. *)
Fixpoint no_upper (s : string) : bool :=
    match s with
    | EmptyString => true
    | String c s' => negb (is_upper_byte c) && no_upper s'
    end.

  (** Some byte of [s] is an ASCII capital letter. *)
Definition has_upper (s : string) : bool := negb (no_upper s).

End GoStrings.
Import GoStrings.

(** ** What the Go runtime and library supply

    [strings.ToLower] folds every rune through Unicode's lower-case mapping.
    The development only relies on the one fact that holds for it on every
    input: no ASCII capital letter survives the folding. *)
Class Lowering := {
  ToLower : string -> string;
  ToLower_no_upper : forall s, no_upper (ToLower s) = true
}.

(** A [for k := range m] loop visits the keys of [m] in an order the runtime
    chooses; all that is known is that each key is visited once. *)
Class RangeOrder := {
  rangeKeys : gmap string bool -> list string;
  rangeKeys_perm : forall m, rangeKeys m ≡ₚ (map_to_list m).*1
}.

(** ** The pattern lists *)

(** Default sensitive field patterns. *)
Definition defaultSensitiveFields : list string :=
  [ "password"; "pwd"; "pass"; "secret"; "key"; "token"; "auth";
    "credential"; "cred"; "private"; "confidential"; "sensitive";
    "api_key"; "apikey"; "access_token"; "refresh_token"; "jwt";
    "session"; "cookie"; "authorization"; "bearer"; "oauth";
    "client_secret"; "private_key"; "passphrase"; "pin"; "code" ].

(** Default PII field patterns. *)
Definition defaultPIIFields : list string :=
  [ "email"; "mail"; "e_mail"; "email_address"; "emailaddress";
    "phone"; "mobile"; "telephone"; "phone_number"; "phonenumber"; "tel";
    "ssn"; "social_security"; "social_security_number"; "tax_id";
    "credit_card"; "creditcard"; "card_number"; "cardnumber"; "ccn";
    "passport"; "passport_number"; "license"; "driver_license"; "dl";
    "name"; "first_name"; "last_name"; "full_name"; "firstname"; "lastname"; "fullname";
    "address"; "street"; "city"; "zip"; "zipcode"; "postal"; "postal_code";
    "ip"; "ip_address"; "ipaddress"; "user_agent"; "useragent";
    "dob"; "date_of_birth"; "birthdate"; "birthday"; "birth_date";
    "iban"; "account_number"; "bank_account"; "routing_number";
    "username"; "user_name"; "login"; "userid" ].

(** ** The logger

    Modelled from the spec: the [Logger] struct and its mode constants are
    declared outside [security_optimized.go]; section 6 of the specification
    gives each display mode as a binary switch between masking and showing,
    and the two replacement values as the logger's mask strings. *)
Inductive PIIMode := MASK_PII | SHOW_PII.
Inductive SensitiveMode := MASK_SENSITIVE | SHOW_SENSITIVE.

Record Logger := {
  piiMode : PIIMode;
  sensitiveMode : SensitiveMode;
  maskString : string;
  piiMaskString : string
}.

(** ** Package-level state *)

Record fieldPatternCache := {
  piiCache : gmap string bool;
  sensitiveCache : gmap string bool
}.

Record Globals := {
  fieldCache : fieldPatternCache;
  piiFieldsMap : gmap string bool;
  sensitiveFieldsMap : gmap string bool;
  onceInit : bool
}.

(** The state at program start: empty caches, nil lookup maps, the
    [sync.Once] not yet fired. *)
Definition initialGlobals : Globals :=
  {| fieldCache := {| piiCache := ∅; sensitiveCache := ∅ |};
     piiFieldsMap := ∅;
     sensitiveFieldsMap := ∅;
     onceInit := false |}.

(** [m[k]] on a [map[string]bool]: the zero value [false] when [k] is absent. *)
Definition index (m : gmap string bool) (k : string) : bool :=
  default false (m !! k).

(** The body of each loop of [initializeFieldMaps]. *)
Definition buildLookup (patterns : list string) : gmap string bool :=
  foldl (fun m pattern => <[ToUpper pattern := true]> (<[pattern := true]> m)) ∅ patterns.

Definition initializeFieldMaps (g : Globals) : Globals :=
  if onceInit g then g
  else {| fieldCache := fieldCache g;
          piiFieldsMap := buildLookup defaultPIIFields;
          sensitiveFieldsMap := buildLookup defaultSensitiveFields;
          onceInit := true |}.

Definition storePII (fieldName : string) (isPII : bool) (g : Globals) : Globals :=
  {| fieldCache := {| piiCache := <[fieldName := isPII]> (piiCache (fieldCache g));
                      sensitiveCache := sensitiveCache (fieldCache g) |};
     piiFieldsMap := piiFieldsMap g;
     sensitiveFieldsMap := sensitiveFieldsMap g;
     onceInit := onceInit g |}.

Definition storeSensitive (fieldName : string) (isSensitive : bool) (g : Globals) : Globals :=
  {| fieldCache := {| piiCache := piiCache (fieldCache g);
                      sensitiveCache := <[fieldName := isSensitive]> (sensitiveCache (fieldCache g)) |};
     piiFieldsMap := piiFieldsMap g;
     sensitiveFieldsMap := sensitiveFieldsMap g;
     onceInit := onceInit g |}.

(** [ClearFieldCache] *)
Definition ClearFieldCache (g : Globals) : Globals :=
  {| fieldCache := {| piiCache := ∅; sensitiveCache := ∅ |};
     piiFieldsMap := piiFieldsMap g;
     sensitiveFieldsMap := sensitiveFieldsMap g;
     onceInit := onceInit g |}.

(** ** The classifiers *)

(** The condition guarding [isPII = true] inside the heuristic loop. *)
Definition piiAccept (lowerFieldName pattern : string) : bool :=
  Nat.leb 3 (len pattern)
  || String.eqb lowerFieldName pattern
  || HasPrefix lowerFieldName (pattern ++ "_")
  || HasSuffix lowerFieldName ("_" ++ pattern)
  || Contains lowerFieldName ("_" ++ pattern ++ "_")
  || (HasPrefix lowerFieldName pattern && Nat.leb (len lowerFieldName / 2) (len pattern))
  || (HasSuffix lowerFieldName pattern && Nat.leb (len lowerFieldName / 2) (len pattern)).

(** The heuristic loop of [isPIIFieldFast] over the keys in visiting order. *)
Fixpoint piiScan (lowerFieldName : string) (patterns : list string) : bool :=
  match patterns with
  | [] => false
  | pattern :: rest =>
      if Contains lowerFieldName pattern && piiAccept lowerFieldName pattern
      then true
      else piiScan lowerFieldName rest
  end.

(** The heuristic loop of [isSensitiveFieldFast]. *)
Fixpoint sensitiveScan (lowerFieldName : string) (patterns : list string) : bool :=
  match patterns with
  | [] => false
  | pattern :: rest =>
      if Contains lowerFieldName pattern then true
      else sensitiveScan lowerFieldName rest
  end.

Section Classifier.
Context {L : Lowering} {O : RangeOrder}.

Definition isPIIFieldFast (l : Logger) (fieldName : string) (g : Globals)
    : bool * Globals :=
    match piiMode l with
    | SHOW_PII => (false, g)
    | MASK_PII =>
        let g := initializeFieldMaps g in
        match piiCache (fieldCache g) !! fieldName with
        | Some cached => (cached, g)
        | None =>
            let lowerFieldName := ToLower fieldName in
            let isPII := index (piiFieldsMap g) lowerFieldName in
            let isPII :=
              if negb isPII
              then piiScan lowerFieldName (rangeKeys (piiFieldsMap g))
              else isPII in
            (isPII, storePII fieldName isPII g)
        end
    end.

Definition isSensitiveFieldFast (l : Logger) (fieldName : string) (g : Globals)
    : bool * Globals :=
    match sensitiveMode l with
    | SHOW_SENSITIVE => (false, g)
    | MASK_SENSITIVE =>
        let g := initializeFieldMaps g in
        match sensitiveCache (fieldCache g) !! fieldName with
        | Some cached => (cached, g)
        | None =>
            let lowerFieldName := ToLower fieldName in
            let isSensitive := index (sensitiveFieldsMap g) lowerFieldName in
            let isSensitive :=
              if negb isSensitive
              then sensitiveScan lowerFieldName (rangeKeys (sensitiveFieldsMap g))
              else isSensitive in
            (isSensitive, storeSensitive fieldName isSensitive g)
        end
    end.

End Classifier.

(** ** Field maps

    A value of type [any].  A [map[string]any] is given by its entries in
    the order in which a [range] loop visits them; in a Go map the keys are
    pairwise distinct ([wf_value] below).  Values of every other dynamic
    type are leaves for the masking pass, whatever they contain. *)
#[local] Unset Elimination Schemes.
Inductive value :=
| VNil
| VBool (b : bool)
| VInt (n : Z)
| VString (s : string)
| VStringMap (m : list (string * string))   (* map[string]string *)
| VSlice (xs : list value)                  (* []any *)
| VMap (m : list (string * value)).         (* map[string]any *)
#[local] Set Elimination Schemes.

Abbreviation fieldMap := (list (string * value)).

(** [m[key] = v] on a map given by its entries. *)
Fixpoint assign {V : Type} (key : string) (v : V) (m : list (string * V))
  : list (string * V) :=
  match m with
  | [] => [(key, v)]
  | (k, w) :: rest =>
      if String.eqb k key then (k, v) :: rest else (k, w) :: assign key v rest
  end.

Definition bothShown (l : Logger) : bool :=
  match sensitiveMode l, piiMode l with
  | SHOW_SENSITIVE, SHOW_PII => true
  | _, _ => false
  end.

Section Masker.
Context {L : Lowering} {O : RangeOrder}.

Section Loop.
Variable l : Logger.
    (** What the final [else] branch stores for a value: the masked nested
        map when the type assertion succeeds, the value itself otherwise. *)
Variable nested : value -> Globals -> value * Globals.

    (** The [for key, value := range fields] loop. *)
Fixpoint maskLoop (fields maskedFields : fieldMap) (g : Globals)
      : fieldMap * Globals :=
      match fields with
      | [] => (maskedFields, g)
      | (key, val) :: rest =>
          let '(isPII, g) := isPIIFieldFast l key g in
          if isPII then
            maskLoop rest (assign key (VString (piiMaskString l)) maskedFields) g
          else
            let '(isSensitive, g) := isSensitiveFieldFast l key g in
            if isSensitive then
              maskLoop rest (assign key (VString (maskString l)) maskedFields) g
            else
              let '(v, g) := nested val g in
              maskLoop rest (assign key v maskedFields) g
      end.
End Loop.

  (** [value.(map[string]any)] followed by the branch taken on its outcome;
      on a map this is the body of [maskSensitiveFieldsFast]. *)
Fixpoint maskNested (l : Logger) (val : value) (g : Globals) {struct val}
    : value * Globals :=
    match val with
    | VMap nestedMap =>
        if bothShown l || Nat.eqb (length nestedMap) 0 then (VMap nestedMap, g)
        else
          let '(maskedFields, g) := maskLoop l (maskNested l) nestedMap [] g in
          (VMap maskedFields, g)
    | _ => (val, g)
    end.

Definition maskSensitiveFieldsFast (l : Logger) (fields : fieldMap) (g : Globals)
    : fieldMap * Globals :=
    if bothShown l || Nat.eqb (length fields) 0 then (fields, g)
    else maskLoop l (maskNested l) fields [] g.

End Masker.


(** ** Instances used to run the model *)

Lemma ToLowerASCII_no_upper (s : string) : no_upper (ToLowerASCII s) = true.
Proof.
  induction s as [|c s IH]; [reflexivity|].
  cbn [ToLowerASCII map_bytes no_upper]. fold (ToLowerASCII s). rewrite IH, andb_true_r.
  destruct c as [[] [] [] [] [] [] [] []]; reflexivity.
Qed.

(** Go's [strings.ToLower] restricted to field names made of ASCII bytes. *)
#[export] Instance asciiLowering : Lowering :=
  {| ToLower := ToLowerASCII; ToLower_no_upper := ToLowerASCII_no_upper |}.

(** One admissible visiting order: the keys as [map_to_list] lists them. *)
#[export] Instance listedOrder : RangeOrder :=
  {| rangeKeys := fun m => (map_to_list m).*1;
     rangeKeys_perm := fun m => reflexivity _ |}.

(** Another one: the same keys backwards. *)
Definition reversedOrder : RangeOrder :=
  {| rangeKeys := fun m => reverse (map_to_list m).*1;
     rangeKeys_perm := fun m => reverse_Permutation _ |}.


(** A logger that masks both categories, and one that shows PII while it
    masks sensitive fields. *)
Definition maskingLogger : Logger :=
  {| piiMode := MASK_PII; sensitiveMode := MASK_SENSITIVE;
     maskString := "***MASKED***"; piiMaskString := "***PII***" |}.

Definition showPIILogger : Logger :=
  {| piiMode := SHOW_PII; sensitiveMode := MASK_SENSITIVE;
     maskString := "***MASKED***"; piiMaskString := "***PII***" |}.

(** Field maps used in examples. *)
Definition exampleFields : fieldMap :=
  [ ("user", VMap [("email", VString "a@b.com"); ("id", VInt 7)]);
    ("note", VString "hi") ].

Definition passportFields : fieldMap := [ ("passport", VString "X1234567") ].

Definition labelsFields : fieldMap :=
  [ ("labels", VStringMap [("password", "hunter2")]);
    ("meta", VMap [("token", VString "t0k3n")]) ].


(** ** Verdicts and the invariant of the package state *)

Section VerdictDefs.
Context {L : Lowering}.

(** What [isPIIFieldFast] computes on a cache miss from the lookup map [m],
    its keys visited in the order [O] gives. *)
Definition piiCompute (O : RangeOrder) (m : gmap string bool) (fieldName : string) : bool :=
  let lowerFieldName := ToLower fieldName in
  let isPII := index m lowerFieldName in
  if negb isPII then piiScan lowerFieldName (rangeKeys m) else isPII.

(** What [isSensitiveFieldFast] computes on a cache miss. *)
Definition sensitiveCompute (O : RangeOrder) (m : gmap string bool) (fieldName : string) : bool :=
  let lowerFieldName := ToLower fieldName in
  let isSensitive := index m lowerFieldName in
  if negb isSensitive then sensitiveScan lowerFieldName (rangeKeys m) else isSensitive.

(** The verdicts over the maps that [initializeFieldMaps] builds. *)
Definition piiVerdict (fieldName : string) : bool :=
  piiCompute listedOrder (buildLookup defaultPIIFields) fieldName.

Definition sensitiveVerdict (fieldName : string) : bool :=
  sensitiveCompute listedOrder (buildLookup defaultSensitiveFields) fieldName.

(** Once the [sync.Once] has fired the lookup maps are the built ones. *)
Definition maps_ok (g : Globals) : Prop :=
  onceInit g = true ->
  piiFieldsMap g = buildLookup defaultPIIFields
  /\ sensitiveFieldsMap g = buildLookup defaultSensitiveFields.

(** The invariant of the package-level variables: the lookup maps are in
    order and every cached verdict is the computed one. *)
Definition globals_ok (g : Globals) : Prop :=
  maps_ok g
  /\ (forall f b, piiCache (fieldCache g) !! f = Some b -> b = piiVerdict f)
  /\ (forall f b, sensitiveCache (fieldCache g) !! f = Some b -> b = sensitiveVerdict f).

(** What a classifier answers under the logger's display mode. *)
Definition piiClass (l : Logger) (fieldName : string) : bool :=
  match piiMode l with
  | SHOW_PII => false
  | MASK_PII => piiVerdict fieldName
  end.

Definition sensitiveClass (l : Logger) (fieldName : string) : bool :=
  match sensitiveMode l with
  | SHOW_SENSITIVE => false
  | MASK_SENSITIVE => sensitiveVerdict fieldName
  end.

End VerdictDefs.

(** ** Classifier calls in sequence *)

Inductive call :=
| CallPII (l : Logger) (fieldName : string)
| CallSensitive (l : Logger) (fieldName : string).

Section Calls.
Context {L : Lowering} {O : RangeOrder}.

Definition runCall (c : call) (g : Globals) : Globals :=
  match c with
  | CallPII l f => (isPIIFieldFast l f g).2
  | CallSensitive l f => (isSensitiveFieldFast l f g).2
  end.

(** A run of classifier calls, none of them [ClearFieldCache]. *)
Definition runCalls (cs : list call) (g : Globals) : Globals :=
  foldl (fun g c => runCall c g) g cs.

End Calls.

(** ** Lookup maps without the upper-case variants *)

(** [initializeFieldMaps]'s loop without its second insertion. *)
Definition buildLookupLowercase (patterns : list string) : gmap string bool :=
  foldl (fun m pattern => <[pattern := true]> m) ∅ patterns.

(** The package state once the lookup maps have been built from the
    lower-case patterns alone. *)
Definition withLowercaseMaps (g : Globals) : Globals :=
  {| fieldCache := fieldCache g;
     piiFieldsMap := buildLookupLowercase defaultPIIFields;
     sensitiveFieldsMap := buildLookupLowercase defaultSensitiveFields;
     onceInit := true |}.



(** ** The PII acceptance policy *)

(** [s] starts with [p], ends with [p], has [p] somewhere inside. *)
Definition is_prefix (p s : string) : Prop := exists r, s = (p ++ r)%string.
Definition is_suffix (p s : string) : Prop := exists r, s = (r ++ p)%string.
Definition is_substring (p s : string) : Prop :=
  exists a b, s = (a ++ p ++ b)%string.

(** The pattern stands at an underscore boundary of the name: [pattern_] at
    its start, [_pattern] at its end, or [_pattern_] inside it. *)
Definition atUnderscoreBoundary (pattern folded : string) : Prop :=
  is_prefix (pattern ++ "_") folded
  \/ is_suffix ("_" ++ pattern) folded
  \/ is_substring ("_" ++ pattern ++ "_") folded.

(** The acceptance policy in the words of the specification, over the
    configured patterns.  [half p n] says when a pattern of [p] bytes covers
    at least half of a name of [n] bytes. *)
Definition piiPolicy (half : nat -> nat -> Prop) (folded : string) : Prop :=
  is_Some (buildLookup defaultPIIFields !! folded)
  \/ exists pattern,
       pattern ∈ defaultPIIFields
       /\ is_substring pattern folded
       /\ (folded = pattern
           \/ 3 <= len pattern
           \/ atUnderscoreBoundary pattern folded
           \/ (is_prefix pattern folded /\ half (len pattern) (len folded))
           \/ (is_suffix pattern folded /\ half (len pattern) (len folded))).

(** [p] bytes are at least half of [n] bytes. *)
Definition atLeastHalf (p n : nat) : Prop := n <= 2 * p.

(** [p] bytes are at least the integer quotient [n / 2], as the source
    compares them. *)
Definition atLeastHalfRoundedDown (p n : nat) : Prop := n / 2 <= p.

(** A decision procedure for [piiPolicy], given one for [half]. *)
Definition piiPolicyb (halfb : nat -> nat -> bool) (folded : string) : bool :=
  index (buildLookup defaultPIIFields) folded
  || existsb
       (fun pattern =>
          Contains folded pattern
          && (String.eqb folded pattern
              || Nat.leb 3 (len pattern)
              || (HasPrefix folded (pattern ++ "_")
                  || HasSuffix folded ("_" ++ pattern)
                  || Contains folded ("_" ++ pattern ++ "_"))
              || (HasPrefix folded pattern && halfb (len pattern) (len folded))
              || (HasSuffix folded pattern && halfb (len pattern) (len folded))))
       defaultPIIFields.

Definition atLeastHalfb (p n : nat) : bool := Nat.leb n (2 * p).
Definition atLeastHalfRoundedDownb (p n : nat) : bool := Nat.leb (n / 2) p.


(** ** The masking pass as a function of the field map alone *)

(** The keys are pairwise distinct. *)
Fixpoint distinct (keys : list string) : bool :=
  match keys with
  | [] => true
  | k :: rest => negb (existsb (String.eqb k) rest) && distinct rest
  end.

(** The value can be a Go value: at every level the keys of a
    [map[string]any] are pairwise distinct. *)
Fixpoint wf_value (v : value) : bool :=
  match v with
  | VMap m => distinct m.*1 && forallb (fun kv => wf_value kv.2) m
  | _ => true
  end.

Section PureMask.
Context {L : Lowering}.

(** What the loop stores for one entry, given what it stores for a value
    in the final [else] branch. *)
Definition maskedEntry (l : Logger) (nested : value -> value) (kv : string * value)
  : string * value :=
  if piiClass l kv.1 then (kv.1, VString (piiMaskString l))
  else if sensitiveClass l kv.1 then (kv.1, VString (maskString l))
  else (kv.1, nested kv.2).

Fixpoint maskedValue (l : Logger) (v : value) {struct v} : value :=
  match v with
  | VMap m =>
      if bothShown l || Nat.eqb (length m) 0 then VMap m
      else VMap (map (maskedEntry l (maskedValue l)) m)
  | _ => v
  end.

Definition maskedFields (l : Logger) (fields : fieldMap) : fieldMap :=
  if bothShown l || Nat.eqb (length fields) 0 then fields
  else map (maskedEntry l (maskedValue l)) fields.

End PureMask.

(** ** Field maps by reference

    A Go map is a reference: [maskSensitiveFieldsFast] can return the very
    map it was given, and a map can be reached from several places.  Here
    the [map[string]any] objects live in a heap, and a value of that type is
    [nil] or the address of its entries. *)

Module Heap.

Definition loc := positive.

Inductive rvalue :=
| RNil
| RBool (b : bool)
| RInt (n : Z)
| RString (s : string)
| RStringMap (p : loc)        (* map[string]string, some other object *)
| RSlice (p : loc)            (* []any, some other object *)
| RMap (r : option loc).      (* map[string]any: nil or an address *)

Abbreviation heap := (gmap loc (list (string * rvalue))).

(** The entries of a map value; a nil map has none. *)
Definition entriesOf (h : heap) (r : option loc) : option (list (string * rvalue)) :=
  match r with
  | None => Some []
  | Some p => h !! p
  end.

(** [m[key] = v] for the map at address [p]. *)
Definition assignAt (p : loc) (key : string) (v : rvalue) (h : heap) : heap :=
  alter (assign key v) p h.

(** The maps reachable from [r] nest at most [depth] levels deep, and every
    address on the way is allocated: the input is acyclic. *)
Fixpoint nestsWithin (h : heap) (depth : nat) (r : option loc) : bool :=
  match r with
  | None => true
  | Some p =>
      match depth with
      | 0 => false
      | S depth' =>
          match h !! p with
          | None => false
          | Some entries =>
              forallb
                (fun kv =>
                   match kv.2 with
                   | RMap r' => nestsWithin h depth' r'
                   | _ => true
                   end)
                entries
          end
      end
  end.

Section Masker.
Context {L : Lowering} {O : RangeOrder}.

Section Loop.
Variable l : Logger.
(** The recursive call [l.maskSensitiveFieldsFast(nestedMap)]. *)
Variable recur : option loc -> Globals -> heap -> option (option loc * Globals * heap).

(** The [for key, value := range fields] loop, storing into the map at
    [maskedFields]. *)
Fixpoint maskLoop (fields : list (string * rvalue)) (maskedFields : loc)
  (g : Globals) (h : heap) : option (Globals * heap) :=
  match fields with
  | [] => Some (g, h)
  | (key, val) :: rest =>
      let '(isPII, g) := isPIIFieldFast l key g in
      if isPII then
        maskLoop rest maskedFields g
          (assignAt maskedFields key (RString (piiMaskString l)) h)
      else
        let '(isSensitive, g) := isSensitiveFieldFast l key g in
        if isSensitive then
          maskLoop rest maskedFields g
            (assignAt maskedFields key (RString (maskString l)) h)
        else
          match val with
          | RMap nestedMap =>
              match recur nestedMap g h with
              | None => None
              | Some (masked, g, h) =>
                  maskLoop rest maskedFields g
                    (assignAt maskedFields key (RMap masked) h)
              end
          | _ => maskLoop rest maskedFields g (assignAt maskedFields key val h)
          end
  end.
End Loop.

(** [maskSensitiveFieldsFast] on a map reference.  [fuel] bounds the depth
    of the recursion; the result is [None] when it runs out or when an
    address is not allocated. *)
Fixpoint maskSensitiveFieldsFast (fuel : nat) (l : Logger) (fields : option loc)
  (g : Globals) (h : heap) : option (option loc * Globals * heap) :=
  match fuel with
  | 0 => None
  | S fuel' =>
      match entriesOf h fields with
      | None => None
      | Some entries =>
          if bothShown l || Nat.eqb (length entries) 0 then Some (fields, g, h)
          else
            let maskedFields := fresh (dom h) in
            let h := <[maskedFields := []]> h in
            match maskLoop l (maskSensitiveFieldsFast fuel' l) entries maskedFields g h with
            | None => None
            | Some (g, h) => Some (Some maskedFields, g, h)
            end
      end
  end.

End Masker.

(** A heap for the examples: the map at 1 holds a leaf and the map at 2,
    which holds a PII field. *)
Definition exampleHeap : heap :=
  {[ 1%positive := [("note", RString "hi"); ("user", RMap (Some 2%positive))];
     2%positive := [("email", RString "a@b.com"); ("id", RInt 7)] ]}.

(** A map whose entry [labels] is a reference to a [map[string]string]. *)
Definition labelsHeap : heap :=
  {[ 1%positive := [("labels", RStringMap 7%positive); ("password", RString "hunter2")] ]}.

End Heap.

(** ** Operations of the package, in sequence *)

Inductive operation :=
| OpInitialize
| OpIsPII (l : Logger) (fieldName : string)
| OpIsSensitive (l : Logger) (fieldName : string)
| OpMask (l : Logger) (fields : fieldMap)
| OpClear.

Section Operations.
Context {L : Lowering} {O : RangeOrder}.

(** The package state after one operation. *)
Definition runOperation (op : operation) (g : Globals) : Globals :=
  match op with
  | OpInitialize => initializeFieldMaps g
  | OpIsPII l f => (isPIIFieldFast l f g).2
  | OpIsSensitive l f => (isSensitiveFieldFast l f g).2
  | OpMask l fields => (maskSensitiveFieldsFast l fields g).2
  | OpClear => ClearFieldCache g
  end.

Definition runOperations (ops : list operation) (g : Globals) : Globals :=
  foldl (fun g op => runOperation op g) g ops.

End Operations.

(** The sensitive heuristic in words: some configured pattern occurs in the
    folded name. *)
Definition sensitivePolicy (folded : string) : Prop :=
  exists pattern, pattern ∈ defaultSensitiveFields /\ is_substring pattern folded.

(** A state whose PII cache holds a verdict that the patterns do not give. *)
Definition staleGlobals : Globals :=
  {| fieldCache := {| piiCache := {[ "note" := true ]}; sensitiveCache := ∅ |};
     piiFieldsMap := buildLookup defaultPIIFields;
     sensitiveFieldsMap := buildLookup defaultSensitiveFields;
     onceInit := true |}.

(** * Properties *)

(** ** The string functions meet their descriptions *)

Module StringFacts.

Lemma append_cons (x : ascii) (a b : string) :
    (String x a ++ b)%string = String x (a ++ b).
Proof. reflexivity. Qed.

Lemma append_nil (b : string) : (EmptyString ++ b)%string = b.
Proof. reflexivity. Qed.

Ltac norm := rewrite ?append_cons, ?append_nil in *.

Lemma append_assoc (a b c : string) : ((a ++ b) ++ c = a ++ (b ++ c))%string.
Proof. induction a as [|x a IH]; norm; [reflexivity | now f_equal]. Qed.

Lemma len_append (a b : string) : len (a ++ b) = len a + len b.
Proof. induction a as [|x a IH]; norm; cbn; [reflexivity | now f_equal]. Qed.

Lemma HasPrefix_spec (s p : string) : HasPrefix s p = true <-> is_prefix p s.
Proof.
    revert s. induction p as [|c p IH]; intros s; cbn [HasPrefix].
    - split; [intros _; now exists s | reflexivity].
    - destruct s as [|d s].
      + split; [discriminate | intros [r Hr]; discriminate].
      + rewrite andb_true_iff, IH. split.
        * intros [Hc [r ->]]. apply Ascii.eqb_eq in Hc as ->. now exists r.
        * intros [r Hr]. norm. injection Hr as -> ->.
          split; [apply Ascii.eqb_refl | now exists r].
Qed.

Lemma slice_from_app (a p : string) : slice_from (len a) (a ++ p) = p.
Proof. induction a as [|x a IH]; norm; cbn; [now destruct p | exact IH]. Qed.

Lemma slice_from_split (n : nat) (s : string) :
    n <= len s -> exists a, s = (a ++ slice_from n s)%string /\ len a = n.
Proof.
    revert s. induction n as [|n IH]; intros s Hn.
    - exists EmptyString. now destruct s.
    - destruct s as [|c s]; unfold len in *; cbn in Hn; [lia|].
      destruct (IH s ltac:(lia)) as (a & Ha & Hl).
      exists (String c a). norm. cbn. split; [now rewrite <- Ha | now rewrite Hl].
Qed.

Lemma HasSuffix_spec (s p : string) : HasSuffix s p = true <-> is_suffix p s.
Proof.
    unfold HasSuffix. rewrite andb_true_iff, Nat.leb_le, String.eqb_eq. split.
    - intros [Hle Heq].
      destruct (slice_from_split (len s - len p) s ltac:(lia)) as (a & Ha & _).
      exists a. now rewrite Heq in Ha.
    - intros [r ->]. rewrite len_append. split; [lia|].
      replace (len r + len p - len p) with (len r) by lia. apply slice_from_app.
Qed.

Lemma Contains_spec (s p : string) : Contains s p = true <-> is_substring p s.
Proof.
    induction s as [|c s IH]; cbn [Contains]; rewrite orb_true_iff, HasPrefix_spec.
    - split.
      + intros [[r Hr] | ?]; [|discriminate]. now exists EmptyString, r.
      + intros (a & b & H). left. destruct a; [now exists b | discriminate].
    - rewrite IH. split.
      + intros [[r Hr] | (a & b & ->)].
        * now exists EmptyString, r.
        * now exists (String c a), b.
      + intros (a & b & H). destruct a as [|x a].
        * left. now exists b.
        * right. norm. injection H as -> ->. now exists a, b.
Qed.

Lemma no_upper_append (a b : string) :
    no_upper (a ++ b) = no_upper a && no_upper b.
Proof.
    induction a as [|x a IH]; norm; cbn; [reflexivity|].
    now rewrite IH, andb_assoc.
Qed.

  (** A string without capital letters contains no string that has one. *)
Lemma Contains_upper (s p : string) :
    no_upper s = true -> has_upper p = true -> Contains s p = false.
Proof.
    intros Hs Hp. destruct (Contains s p) eqn:E; [|reflexivity].
    apply Contains_spec in E as (a & b & ->).
    rewrite !no_upper_append, !andb_true_iff in Hs. destruct Hs as (_ & Hp' & _).
    unfold has_upper in Hp. now rewrite Hp' in Hp.
Qed.

Lemma no_upper_has_upper_ne (s p : string) :
    no_upper s = true -> has_upper p = true -> s <> p.
Proof. intros Hs Hp ->. unfold has_upper in Hp. now rewrite Hs in Hp. Qed.

End StringFacts.
Import StringFacts.


(** ** The lookup maps *)

Section LookupFacts.

Lemma buildLookup_from (patterns : list string) (m : gmap string bool) (k : string) :
    foldl (fun m pattern => <[ToUpper pattern := true]> (<[pattern := true]> m)) m patterns !! k
    = if decide (k ∈ patterns ∨ k ∈ ToUpper <$> patterns) then Some true else m !! k.
Proof.
    revert m. induction patterns as [|p ps IH]; intros m; cbn [foldl].
    - case_decide as H; [|reflexivity]. destruct H as [H|H]; inversion H.
    - rewrite IH. rewrite fmap_cons.
      destruct (decide (k ∈ ps ∨ k ∈ ToUpper <$> ps)) as [H|H].
      + rewrite decide_True; [reflexivity|]. rewrite !elem_of_cons. tauto.
      + destruct (decide (k = ToUpper p)) as [->|Hu].
        * rewrite lookup_insert_eq, decide_True; [reflexivity|].
          rewrite !elem_of_cons. tauto.
        * rewrite lookup_insert_ne by congruence.
          destruct (decide (k = p)) as [->|Hp].
          -- rewrite lookup_insert_eq, decide_True; [reflexivity|].
             rewrite !elem_of_cons. tauto.
          -- rewrite lookup_insert_ne by congruence.
             rewrite decide_False; [reflexivity|]. rewrite !elem_of_cons. tauto.
Qed.

  (** The keys of a lookup map are the patterns and their upper-case forms,
      each mapped to [true]. *)
Lemma buildLookup_lookup (patterns : list string) (k : string) :
    buildLookup patterns !! k
    = if decide (k ∈ patterns ∨ k ∈ ToUpper <$> patterns) then Some true else None.
Proof. unfold buildLookup. now rewrite buildLookup_from, lookup_empty. Qed.

Lemma index_buildLookup (patterns : list string) (k : string) :
    index (buildLookup patterns) k = true
    <-> k ∈ patterns ∨ k ∈ ToUpper <$> patterns.
Proof.
    unfold index. rewrite buildLookup_lookup. case_decide; cbn; [tauto|].
    split; [discriminate | tauto].
Qed.

Lemma index_is_Some (patterns : list string) (k : string) :
    index (buildLookup patterns) k = true <-> is_Some (buildLookup patterns !! k).
Proof.
    unfold index. rewrite buildLookup_lookup. case_decide; cbn.
    - split; [eauto | reflexivity].
    - split; [discriminate | intros [? ?]; discriminate].
Qed.

Lemma elem_of_rangeKeys {O : RangeOrder} (m : gmap string bool) (k : string) :
    k ∈ rangeKeys m <-> is_Some (m !! k).
Proof.
    rewrite (rangeKeys_perm m), list_elem_of_fmap. split.
    - intros [[k' b] [-> H]]. apply elem_of_map_to_list in H. cbn. eauto.
    - intros [b H]. exists (k, b). split; [reflexivity|].
      now apply elem_of_map_to_list.
Qed.

Lemma elem_of_rangeKeys_buildLookup {O : RangeOrder} (patterns : list string) (k : string) :
    k ∈ rangeKeys (buildLookup patterns)
    <-> k ∈ patterns ∨ k ∈ ToUpper <$> patterns.
Proof.
    rewrite elem_of_rangeKeys, buildLookup_lookup. case_decide.
    - split; [tauto | eauto].
    - split; [intros [? ?]; discriminate | tauto].
Qed.

End LookupFacts.

(** ** The heuristic loops *)

Section ScanFacts.

Lemma piiScan_true (lower : string) (patterns : list string) :
    piiScan lower patterns = true
    <-> exists p, p ∈ patterns /\ Contains lower p = true /\ piiAccept lower p = true.
Proof.
    induction patterns as [|q ps IH]; cbn [piiScan].
    - split; [discriminate | intros (p & H & _); inversion H].
    - destruct (Contains lower q && piiAccept lower q) eqn:E.
      + split; [intros _ | reflexivity]. apply andb_true_iff in E.
        exists q. split; [left | exact E].
      + rewrite IH. split.
        * intros (p & Hp & H). exists p. split; [now right | exact H].
        * intros (p & Hp & Hc & Ha). apply elem_of_cons in Hp as [->|Hp].
          -- rewrite Hc, Ha in E. discriminate.
          -- eauto.
Qed.

Lemma sensitiveScan_true (lower : string) (patterns : list string) :
    sensitiveScan lower patterns = true
    <-> exists p, p ∈ patterns /\ Contains lower p = true.
Proof.
    induction patterns as [|q ps IH]; cbn [sensitiveScan].
    - split; [discriminate | intros (p & H & _); inversion H].
    - destruct (Contains lower q) eqn:E.
      + split; [intros _ | reflexivity]. exists q. split; [left | exact E].
      + rewrite IH. split.
        * intros (p & Hp & H). exists p. split; [now right | exact H].
        * intros (p & Hp & Hc). apply elem_of_cons in Hp as [->|Hp].
          -- rewrite Hc in E. discriminate.
          -- eauto.
Qed.

Lemma bool_eq_iff (a b : bool) : (a = true <-> b = true) -> a = b.
Proof. destruct a, b; intuition congruence. Qed.

  (** The outcome of either loop depends on the set of keys visited, not on
      the order of the visit. *)
Lemma piiScan_same_keys (lower : string) (ps qs : list string) :
    (forall p, p ∈ ps <-> p ∈ qs) -> piiScan lower ps = piiScan lower qs.
Proof.
    intros H. apply bool_eq_iff. rewrite !piiScan_true.
    split; intros (p & Hp & Hc); exists p; (split; [now apply H | exact Hc]).
Qed.

Lemma sensitiveScan_same_keys (lower : string) (ps qs : list string) :
    (forall p, p ∈ ps <-> p ∈ qs) -> sensitiveScan lower ps = sensitiveScan lower qs.
Proof.
    intros H. apply bool_eq_iff. rewrite !sensitiveScan_true.
    split; intros (p & Hp & Hc); exists p; (split; [now apply H | exact Hc]).
Qed.

Lemma piiScan_order (O1 O2 : RangeOrder) (lower : string) (m : gmap string bool) :
    piiScan lower (@rangeKeys O1 m) = piiScan lower (@rangeKeys O2 m).
Proof. apply piiScan_same_keys. intros p. now rewrite !elem_of_rangeKeys. Qed.

Lemma sensitiveScan_order (O1 O2 : RangeOrder) (lower : string) (m : gmap string bool) :
    sensitiveScan lower (@rangeKeys O1 m) = sensitiveScan lower (@rangeKeys O2 m).
Proof. apply sensitiveScan_same_keys. intros p. now rewrite !elem_of_rangeKeys. Qed.

End ScanFacts.


(** ** The classifiers and the invariant *)

Section Verdicts.
Context {L : Lowering}.

Lemma piiCompute_order (O1 O2 : RangeOrder) (m : gmap string bool) (f : string) :
  piiCompute O1 m f = piiCompute O2 m f.
Proof. unfold piiCompute. now rewrite (piiScan_order O1 O2). Qed.

Lemma sensitiveCompute_order (O1 O2 : RangeOrder) (m : gmap string bool) (f : string) :
  sensitiveCompute O1 m f = sensitiveCompute O2 m f.
Proof. unfold sensitiveCompute. now rewrite (sensitiveScan_order O1 O2). Qed.

Lemma initialGlobals_ok : globals_ok initialGlobals.
Proof.
  split; [discriminate|]. split; intros f b H; cbn in H;
    rewrite lookup_empty in H; discriminate.
Qed.

Lemma initializeFieldMaps_built (g : Globals) :
  maps_ok g ->
  piiFieldsMap (initializeFieldMaps g) = buildLookup defaultPIIFields
  /\ sensitiveFieldsMap (initializeFieldMaps g) = buildLookup defaultSensitiveFields
  /\ onceInit (initializeFieldMaps g) = true
  /\ fieldCache (initializeFieldMaps g) = fieldCache g.
Proof.
  intros Hm. unfold initializeFieldMaps.
  destruct (onceInit g) eqn:E; cbn [piiFieldsMap sensitiveFieldsMap onceInit fieldCache];
    [|tauto].
  destruct (Hm E) as [-> ->]. tauto.
Qed.

Lemma initializeFieldMaps_ok (g : Globals) :
  globals_ok g -> globals_ok (initializeFieldMaps g).
Proof.
  intros H. destruct (initializeFieldMaps_built g (proj1 H)) as (Hp & Hs & Ho & Hc).
  destruct H as (_ & H1 & H2). unfold globals_ok, maps_ok. rewrite Hc. tauto.
Qed.

Lemma ClearFieldCache_ok (g : Globals) : globals_ok g -> globals_ok (ClearFieldCache g).
Proof.
  intros (Hm & _). split; [exact Hm|].
  split; intros f b H; cbn in H; rewrite lookup_empty in H; discriminate.
Qed.

Context {O : RangeOrder}.

Lemma isPIIFieldFast_shown (l : Logger) (f : string) (g : Globals) :
  piiMode l = SHOW_PII -> isPIIFieldFast l f g = (false, g).
Proof. intros H. unfold isPIIFieldFast. now rewrite H. Qed.

Lemma isSensitiveFieldFast_shown (l : Logger) (f : string) (g : Globals) :
  sensitiveMode l = SHOW_SENSITIVE -> isSensitiveFieldFast l f g = (false, g).
Proof. intros H. unfold isSensitiveFieldFast. now rewrite H. Qed.

Lemma isPIIFieldFast_masking (l : Logger) (f : string) (g : Globals) :
  piiMode l = MASK_PII -> globals_ok g ->
  (isPIIFieldFast l f g).1 = piiVerdict f /\ globals_ok (isPIIFieldFast l f g).2.
Proof.
  intros Hl Hg. unfold isPIIFieldFast. rewrite Hl.
  pose proof (initializeFieldMaps_ok g Hg) as Hg'.
  destruct (initializeFieldMaps_built g (proj1 Hg)) as (Hp & Hs & Ho & Hc).
  cbv zeta. destruct (piiCache (fieldCache (initializeFieldMaps g)) !! f) as [b|] eqn:E.
  - split; [|exact Hg']. exact (proj1 (proj2 Hg') f b E).
  - rewrite Hp. fold (piiCompute O (buildLookup defaultPIIFields) f).
    rewrite (piiCompute_order O listedOrder). fold (piiVerdict f).
    split; [reflexivity|]. destruct Hg' as (H0 & H1 & H2).
    split; [exact H0|]. split; [|exact H2].
    intros f' b. cbn. destruct (decide (f = f')) as [->|Hne].
    + rewrite lookup_insert_eq. congruence.
    + rewrite lookup_insert_ne by exact Hne. apply H1.
Qed.

Lemma isSensitiveFieldFast_masking (l : Logger) (f : string) (g : Globals) :
  sensitiveMode l = MASK_SENSITIVE -> globals_ok g ->
  (isSensitiveFieldFast l f g).1 = sensitiveVerdict f
  /\ globals_ok (isSensitiveFieldFast l f g).2.
Proof.
  intros Hl Hg. unfold isSensitiveFieldFast. rewrite Hl.
  pose proof (initializeFieldMaps_ok g Hg) as Hg'.
  destruct (initializeFieldMaps_built g (proj1 Hg)) as (Hp & Hs & Ho & Hc).
  cbv zeta. destruct (sensitiveCache (fieldCache (initializeFieldMaps g)) !! f) as [b|] eqn:E.
  - split; [|exact Hg']. exact (proj2 (proj2 Hg') f b E).
  - rewrite Hs. fold (sensitiveCompute O (buildLookup defaultSensitiveFields) f).
    rewrite (sensitiveCompute_order O listedOrder). fold (sensitiveVerdict f).
    split; [reflexivity|]. destruct Hg' as (H0 & H1 & H2).
    split; [exact H0|]. split; [exact H1|].
    intros f' b. cbn. destruct (decide (f = f')) as [->|Hne].
    + rewrite lookup_insert_eq. congruence.
    + rewrite lookup_insert_ne by exact Hne. apply H2.
Qed.

(** In a state that satisfies the invariant a classifier answers with the
    verdict of its category, and leaves the invariant in place. *)
Lemma isPIIFieldFast_class (l : Logger) (f : string) (g : Globals) :
  globals_ok g ->
  (isPIIFieldFast l f g).1 = piiClass l f /\ globals_ok (isPIIFieldFast l f g).2.
Proof.
  intros Hg. unfold piiClass. destruct (piiMode l) eqn:E.
  - now apply isPIIFieldFast_masking.
  - now rewrite isPIIFieldFast_shown.
Qed.

Lemma isSensitiveFieldFast_class (l : Logger) (f : string) (g : Globals) :
  globals_ok g ->
  (isSensitiveFieldFast l f g).1 = sensitiveClass l f
  /\ globals_ok (isSensitiveFieldFast l f g).2.
Proof.
  intros Hg. unfold sensitiveClass. destruct (sensitiveMode l) eqn:E.
  - now apply isSensitiveFieldFast_masking.
  - now rewrite isSensitiveFieldFast_shown.
Qed.

End Verdicts.


Ltac bool_to_prop :=
  repeat first [rewrite andb_true_iff | rewrite orb_true_iff];
  rewrite ?String.eqb_eq, ?Nat.leb_le, ?HasPrefix_spec, ?HasSuffix_spec, ?Contains_spec.

Ltac bool_to_prop_in H :=
  repeat first [rewrite andb_true_iff in H | rewrite orb_true_iff in H];
  rewrite ?String.eqb_eq, ?Nat.leb_le, ?HasPrefix_spec, ?HasSuffix_spec, ?Contains_spec in H.

Lemma piiPolicyb_spec (half : nat -> nat -> Prop) (halfb : nat -> nat -> bool) :
  (forall p n, halfb p n = true <-> half p n) ->
  forall folded, piiPolicyb halfb folded = true <-> piiPolicy half folded.
Proof.
  intros Hh folded. unfold piiPolicyb, piiPolicy, atUnderscoreBoundary.
  rewrite orb_true_iff, index_is_Some, existsb_exists.
  apply or_iff_compat_l. split.
  - intros (p & Hin & H). exists p. apply list_elem_of_In in Hin.
    bool_to_prop_in H. rewrite !Hh in H. tauto.
  - intros (p & Hin & H). exists p. apply list_elem_of_In in Hin.
    bool_to_prop. rewrite !Hh. tauto.
Qed.

Lemma atLeastHalfb_spec (p n : nat) : atLeastHalfb p n = true <-> atLeastHalf p n.
Proof. apply Nat.leb_le. Qed.

Lemma atLeastHalfRoundedDownb_spec (p n : nat) :
  atLeastHalfRoundedDownb p n = true <-> atLeastHalfRoundedDown p n.
Proof. apply Nat.leb_le. Qed.

(** The guard of the heuristic loop, condition by condition. *)
Lemma piiAccept_spec (lower pattern : string) :
  piiAccept lower pattern = true
  <-> 3 <= len pattern
      \/ lower = pattern
      \/ is_prefix (pattern ++ "_") lower
      \/ is_suffix ("_" ++ pattern) lower
      \/ is_substring ("_" ++ pattern ++ "_") lower
      \/ (is_prefix pattern lower /\ len lower / 2 <= len pattern)
      \/ (is_suffix pattern lower /\ len lower / 2 <= len pattern).
Proof.
  unfold piiAccept. bool_to_prop. tauto.
Qed.

(** Every upper-case variant stored in the lookup maps has a capital letter. *)
Lemma defaultPIIFields_upper (p : string) :
  p ∈ ToUpper <$> defaultPIIFields -> has_upper p = true.
Proof.
  assert (H : forallb has_upper (ToUpper <$> defaultPIIFields) = true) by reflexivity.
  intros Hin. apply list_elem_of_In in Hin. revert p Hin. now apply forallb_forall.
Qed.

Lemma defaultSensitiveFields_upper (p : string) :
  p ∈ ToUpper <$> defaultSensitiveFields -> has_upper p = true.
Proof.
  assert (H : forallb has_upper (ToUpper <$> defaultSensitiveFields) = true) by reflexivity.
  intros Hin. apply list_elem_of_In in Hin. revert p Hin. now apply forallb_forall.
Qed.

Section Policy.
Context {L : Lowering}.

(** The verdict of the PII classifier is the policy with the rounded-down
    half, decided over the configured patterns. *)
Lemma piiVerdict_policyb (f : string) :
  piiVerdict f = piiPolicyb atLeastHalfRoundedDownb (ToLower f).
Proof.
  apply bool_eq_iff. unfold piiVerdict, piiCompute, piiPolicyb. cbv zeta.
  set (lower := ToLower f). set (m := buildLookup defaultPIIFields).
  destruct (index m lower) eqn:E; cbn [negb orb]; [tauto|].
  rewrite piiScan_true, existsb_exists. split.
  - intros (p & Hin & Hc & Ha).
    apply elem_of_rangeKeys_buildLookup in Hin as [Hin|Hin].
    + exists p. split; [now apply list_elem_of_In|]. rewrite Hc. cbn [andb].
      apply piiAccept_spec in Ha. unfold atLeastHalfRoundedDownb.
      bool_to_prop. tauto.
    + rewrite (Contains_upper lower p) in Hc; [discriminate| |].
      * apply ToLower_no_upper.
      * now apply defaultPIIFields_upper.
  - intros (p & Hin & H). apply list_elem_of_In in Hin.
    apply andb_true_iff in H as [Hc Ha]. exists p.
    split; [apply elem_of_rangeKeys_buildLookup; now left|].
    split; [exact Hc|]. apply piiAccept_spec.
    unfold atLeastHalfRoundedDownb in Ha. bool_to_prop_in Ha. tauto.
Qed.

End Policy.


(** ** Upper-case variants and visiting order *)

Section CaseVariants.
Context {L : Lowering}.

Lemma buildLookupLowercase_from (patterns : list string) (m : gmap string bool) (k : string) :
  foldl (fun m pattern => <[pattern := true]> m) m patterns !! k
  = if decide (k ∈ patterns) then Some true else m !! k.
Proof.
  revert m. induction patterns as [|p ps IH]; intros m; cbn [foldl].
  - case_decide as H; [inversion H | reflexivity].
  - rewrite IH. destruct (decide (k ∈ ps)) as [H|H].
    + rewrite decide_True; [reflexivity | now right].
    + destruct (decide (k = p)) as [->|Hp].
      * rewrite lookup_insert_eq, decide_True; [reflexivity | left].
      * rewrite lookup_insert_ne by congruence.
        rewrite decide_False; [reflexivity|]. rewrite elem_of_cons. tauto.
Qed.

Lemma buildLookupLowercase_lookup (patterns : list string) (k : string) :
  buildLookupLowercase patterns !! k
  = if decide (k ∈ patterns) then Some true else None.
Proof. unfold buildLookupLowercase. now rewrite buildLookupLowercase_from, lookup_empty. Qed.

Variable patterns : list string.
Hypothesis patterns_upper : forall p, p ∈ ToUpper <$> patterns -> has_upper p = true.

(** A folded name is a key of the full map exactly when it is one of the
    map built from the lower-case patterns. *)
Lemma index_lowercase (f : string) :
  index (buildLookup patterns) (ToLower f)
  = index (buildLookupLowercase patterns) (ToLower f).
Proof.
  unfold index. rewrite buildLookup_lookup, buildLookupLowercase_lookup.
  destruct (decide (ToLower f ∈ patterns)) as [H|H].
  - rewrite decide_True; [reflexivity | now left].
  - rewrite decide_False; [reflexivity|]. intros [H'|H']; [tauto|].
    apply patterns_upper in H'.
    now apply (no_upper_has_upper_ne (ToLower f) (ToLower f) (ToLower_no_upper f)).
Qed.

Lemma contained_key_lowercase (O1 O2 : RangeOrder) (f p : string) :
  Contains (ToLower f) p = true ->
  p ∈ @rangeKeys O1 (buildLookup patterns)
  <-> p ∈ @rangeKeys O2 (buildLookupLowercase patterns).
Proof.
  intros Hc. rewrite elem_of_rangeKeys_buildLookup, elem_of_rangeKeys,
    buildLookupLowercase_lookup.
  split.
  - intros [H|H]; [rewrite decide_True by exact H; eauto|].
    apply patterns_upper in H.
    rewrite (Contains_upper _ _ (ToLower_no_upper f) H) in Hc. discriminate.
  - case_decide; [now left | intros [? ?]; discriminate].
Qed.

Lemma piiCompute_lowercase (O1 O2 : RangeOrder) (f : string) :
  piiCompute O1 (buildLookup patterns) f
  = piiCompute O2 (buildLookupLowercase patterns) f.
Proof.
  unfold piiCompute. cbv zeta. rewrite index_lowercase.
  destruct (index (buildLookupLowercase patterns) (ToLower f)); [reflexivity|].
  cbn [negb]. apply bool_eq_iff. rewrite !piiScan_true.
  split; intros (p & Hin & Hc & Ha); exists p;
    (split; [now apply (contained_key_lowercase O1 O2 f p Hc) | tauto]).
Qed.

Lemma sensitiveCompute_lowercase (O1 O2 : RangeOrder) (f : string) :
  sensitiveCompute O1 (buildLookup patterns) f
  = sensitiveCompute O2 (buildLookupLowercase patterns) f.
Proof.
  unfold sensitiveCompute. cbv zeta. rewrite index_lowercase.
  destruct (index (buildLookupLowercase patterns) (ToLower f)); [reflexivity|].
  cbn [negb]. apply bool_eq_iff. rewrite !sensitiveScan_true.
  split; intros (p & Hin & Hc); exists p;
    (split; [now apply (contained_key_lowercase O1 O2 f p Hc) | tauto]).
Qed.

End CaseVariants.

Section Sequences.
Context {L : Lowering}.

(** After a call under a masking mode the verdict sits in the cache. *)
Lemma isPIIFieldFast_stores (O : RangeOrder) (l : Logger) (f : string) (g : Globals) :
  piiMode l = MASK_PII ->
  piiCache (fieldCache (isPIIFieldFast l f g).2) !! f = Some (isPIIFieldFast l f g).1.
Proof.
  intros Hl. unfold isPIIFieldFast. rewrite Hl. cbv zeta.
  destruct (piiCache (fieldCache (initializeFieldMaps g)) !! f) eqn:E; cbn.
  - exact E.
  - apply lookup_insert_eq.
Qed.

Lemma isSensitiveFieldFast_stores (O : RangeOrder) (l : Logger) (f : string) (g : Globals) :
  sensitiveMode l = MASK_SENSITIVE ->
  sensitiveCache (fieldCache (isSensitiveFieldFast l f g).2) !! f
  = Some (isSensitiveFieldFast l f g).1.
Proof.
  intros Hl. unfold isSensitiveFieldFast. rewrite Hl. cbv zeta.
  destruct (sensitiveCache (fieldCache (initializeFieldMaps g)) !! f) eqn:E; cbn.
  - exact E.
  - apply lookup_insert_eq.
Qed.

Lemma initializeFieldMaps_cache (g : Globals) :
  fieldCache (initializeFieldMaps g) = fieldCache g.
Proof. unfold initializeFieldMaps. now destruct (onceInit g). Qed.

(** A cached verdict is what the next call answers. *)
Lemma isPIIFieldFast_hit (O : RangeOrder) (l : Logger) (f : string) (g : Globals) (b : bool) :
  piiMode l = MASK_PII -> piiCache (fieldCache g) !! f = Some b ->
  isPIIFieldFast l f g = (b, initializeFieldMaps g).
Proof.
  intros Hl Hb. unfold isPIIFieldFast. rewrite Hl. cbv zeta.
  now rewrite initializeFieldMaps_cache, Hb.
Qed.

Lemma isSensitiveFieldFast_hit (O : RangeOrder) (l : Logger) (f : string) (g : Globals) (b : bool) :
  sensitiveMode l = MASK_SENSITIVE -> sensitiveCache (fieldCache g) !! f = Some b ->
  isSensitiveFieldFast l f g = (b, initializeFieldMaps g).
Proof.
  intros Hl Hb. unfold isSensitiveFieldFast. rewrite Hl. cbv zeta.
  now rewrite initializeFieldMaps_cache, Hb.
Qed.

(** No classifier call removes or changes a cached verdict. *)
Lemma runCall_keeps (O : RangeOrder) (c : call) (g : Globals) (f : string) (b : bool) :
  (piiCache (fieldCache g) !! f = Some b ->
   piiCache (fieldCache (runCall c g)) !! f = Some b)
  /\ (sensitiveCache (fieldCache g) !! f = Some b ->
      sensitiveCache (fieldCache (runCall c g)) !! f = Some b).
Proof.
  destruct c as [l f'|l f']; cbn [runCall].
  - unfold isPIIFieldFast. destruct (piiMode l); [|tauto]. cbv zeta.
    destruct (piiCache (fieldCache (initializeFieldMaps g)) !! f') eqn:E; cbn;
      rewrite ?initializeFieldMaps_cache in *; [tauto|].
    split; [|tauto]. intros H. rewrite lookup_insert_ne; [exact H | congruence].
  - unfold isSensitiveFieldFast. destruct (sensitiveMode l); [|tauto]. cbv zeta.
    destruct (sensitiveCache (fieldCache (initializeFieldMaps g)) !! f') eqn:E; cbn;
      rewrite ?initializeFieldMaps_cache in *; [tauto|].
    split; [tauto|]. intros H. rewrite lookup_insert_ne; [exact H | congruence].
Qed.

Lemma runCalls_keeps (O : RangeOrder) (cs : list call) (g : Globals) (f : string) (b : bool) :
  (piiCache (fieldCache g) !! f = Some b ->
   piiCache (fieldCache (runCalls cs g)) !! f = Some b)
  /\ (sensitiveCache (fieldCache g) !! f = Some b ->
      sensitiveCache (fieldCache (runCalls cs g)) !! f = Some b).
Proof.
  revert g. induction cs as [|c cs IH]; intros g; [cbn; tauto|].
  cbn [runCalls foldl]. fold (runCalls cs (runCall c g)).
  destruct (IH (runCall c g)) as [H1 H2]. destruct (runCall_keeps O c g f b) as [H3 H4].
  tauto.
Qed.

(** From one state, the order in which the lookup map is visited changes
    neither the verdict nor the state left behind. *)
Lemma isPIIFieldFast_order (O1 O2 : RangeOrder) (l : Logger) (f : string) (g : Globals) :
  @isPIIFieldFast L O1 l f g = @isPIIFieldFast L O2 l f g.
Proof. unfold isPIIFieldFast. now rewrite (piiScan_order O1 O2). Qed.

Lemma isSensitiveFieldFast_order (O1 O2 : RangeOrder) (l : Logger) (f : string) (g : Globals) :
  @isSensitiveFieldFast L O1 l f g = @isSensitiveFieldFast L O2 l f g.
Proof. unfold isSensitiveFieldFast. now rewrite (sensitiveScan_order O1 O2). Qed.

End Sequences.

(** ** The masking pass *)

Section ValueInduction.
Variable P : value -> Prop.
Hypothesis leaf : forall v, match v with VMap _ => True | _ => P v end.
Hypothesis node : forall m, Forall (fun kv => P kv.2) m -> P (VMap m).

(** Induction over the nesting of [map[string]any] values. *)
Fixpoint value_nesting_ind (v : value) : P v :=
  match v with
  | VMap m =>
      node m
        ((fix entries (m : fieldMap) : Forall (fun kv => P kv.2) m :=
            match m with
            | [] => List.Forall_nil _
            | kv :: rest =>
                List.Forall_cons _ kv rest (value_nesting_ind kv.2) (entries rest)
            end) m)
  | VNil => leaf VNil
  | VBool b => leaf (VBool b)
  | VInt n => leaf (VInt n)
  | VString s => leaf (VString s)
  | VStringMap m => leaf (VStringMap m)
  | VSlice xs => leaf (VSlice xs)
  end.

End ValueInduction.

Lemma distinct_NoDup (keys : list string) : distinct keys = true <-> NoDup keys.
Proof.
  induction keys as [|k ks IH]; cbn [distinct].
  - split; [constructor | reflexivity].
  - rewrite andb_true_iff, negb_true_iff, IH, NoDup_cons.
    apply and_iff_compat_r. split.
    + intros H Hin. apply list_elem_of_In in Hin.
      assert (E : existsb (String.eqb k) ks = true)
        by (apply existsb_exists; exists k; split; [exact Hin | apply String.eqb_refl]).
      congruence.
    + intros H. destruct (existsb (String.eqb k) ks) eqn:E; [|reflexivity].
      apply existsb_exists in E as (x & Hx & Hk). apply String.eqb_eq in Hk as <-.
      apply list_elem_of_In in Hx. contradiction.
Qed.

(** Assigning under a key the map does not have adds an entry at the end. *)
Lemma assign_fresh {V : Type} (key : string) (v : V) (m : list (string * V)) :
  key ∉ m.*1 -> assign key v m = m ++ [(key, v)].
Proof.
  induction m as [|[k w] m IH]; intros Hk; cbn [assign]; [reflexivity|].
  rewrite fmap_cons, not_elem_of_cons in Hk. destruct Hk as [Hne Hk]. cbn in Hne.
  destruct (String.eqb k key) eqn:E.
  - apply String.eqb_eq in E. congruence.
  - cbn. now rewrite IH.
Qed.

Lemma wf_value_map (m : fieldMap) :
  wf_value (VMap m) = true
  <-> NoDup m.*1 /\ Forall (fun kv => wf_value kv.2 = true) m.
Proof.
  cbn [wf_value]. rewrite andb_true_iff, distinct_NoDup, forallb_forall, Forall_forall.
  apply and_iff_compat_l. split; intros H x Hx; apply H; now apply list_elem_of_In.
Qed.

Section MaskFacts.
Context {L : Lowering} {O : RangeOrder}.

Lemma maskedEntry_key (l : Logger) (nested : value -> value) (kv : string * value) :
  (maskedEntry l nested kv).1 = kv.1.
Proof.
  unfold maskedEntry. destruct (piiClass l kv.1); [reflexivity|].
  now destruct (sensitiveClass l kv.1).
Qed.

Lemma maskedEntry_keys (l : Logger) (nested : value -> value) (m : fieldMap) :
  (map (maskedEntry l nested) m).*1 = m.*1.
Proof.
  induction m as [|kv m IH]; [reflexivity|].
  cbn [map]. rewrite !fmap_cons, maskedEntry_key. now f_equal.
Qed.

(** The result of masking has the keys of its input, in the same order. *)
Lemma maskedFields_keys (l : Logger) (m : fieldMap) : (maskedFields l m).*1 = m.*1.
Proof.
  unfold maskedFields. destruct (bothShown l || Nat.eqb (length m) 0); [reflexivity|].
  apply maskedEntry_keys.
Qed.

(** What a value stored by the loop is: the masked nested map, or the value. *)
Lemma maskedValue_map (l : Logger) (m : fieldMap) :
  maskedValue l (VMap m) = VMap (maskedFields l m).
Proof. cbn [maskedValue]. unfold maskedFields. now destruct (bothShown l || _). Qed.

Lemma maskNested_map (l : Logger) (m : fieldMap) (g : Globals) :
  maskNested l (VMap m) g
  = let '(masked, g') := maskSensitiveFieldsFast l m g in (VMap masked, g').
Proof.
  cbn [maskNested]. unfold maskSensitiveFieldsFast.
  now destruct (bothShown l || Nat.eqb (length m) 0).
Qed.

Lemma maskNested_leaf (l : Logger) (v : value) (g : Globals) :
  (forall m, v <> VMap m) -> maskNested l v g = (v, g).
Proof. destruct v; intros H; try reflexivity. now destruct (H m). Qed.

Lemma maskedValue_leaf (l : Logger) (v : value) :
  (forall m, v <> VMap m) -> maskedValue l v = v.
Proof. destruct v; intros H; try reflexivity. now destruct (H m). Qed.

Definition nested_pure (l : Logger) (v : value) : Prop :=
  wf_value v = true ->
  forall g, globals_ok g ->
    (maskNested l v g).1 = maskedValue l v /\ globals_ok (maskNested l v g).2.

Lemma maskLoop_pure (l : Logger) (fields : fieldMap) :
  Forall (fun kv => wf_value kv.2 = true) fields ->
  Forall (fun kv => nested_pure l kv.2) fields ->
  forall (acc : fieldMap) (g : Globals),
    globals_ok g -> NoDup (acc.*1 ++ fields.*1) ->
    (maskLoop l (maskNested l) fields acc g).1
    = acc ++ map (maskedEntry l (maskedValue l)) fields
    /\ globals_ok (maskLoop l (maskNested l) fields acc g).2.
Proof.
  induction fields as [|[key val] rest IH]; intros Hwf Hn acc g Hg Hnd.
  - cbn. now rewrite app_nil_r.
  - apply Forall_cons in Hwf as [Hwf1 Hwf]. apply Forall_cons in Hn as [Hn1 Hn].
    rewrite fmap_cons in Hnd. cbn [fst snd] in Hnd, Hwf1, Hn1.
    assert (Hfresh : key ∉ acc.*1).
    { apply NoDup_app in Hnd as (_ & Hd & _). intros Hin.
      apply (Hd key Hin). left. }
    assert (Hnd' : forall v, NoDup ((assign key v acc).*1 ++ rest.*1)).
    { intros v. rewrite assign_fresh by exact Hfresh.
      rewrite fmap_app, <- app_assoc. exact Hnd. }
    cbn [maskLoop map]. unfold maskedEntry at 1. cbn [fst snd].
    destruct (isPIIFieldFast_class l key g Hg) as [E1 Hg1].
    destruct (isPIIFieldFast l key g) as [isPII g1]. cbn [fst snd] in E1, Hg1.
    rewrite <- E1. destruct isPII.
    { destruct (IH Hwf Hn (assign key (VString (piiMaskString l)) acc) g1 Hg1
                  (Hnd' _)) as [-> Hok]. split; [|exact Hok].
      rewrite assign_fresh by exact Hfresh. now rewrite <- app_assoc. }
    destruct (isSensitiveFieldFast_class l key g1 Hg1) as [E2 Hg2].
    destruct (isSensitiveFieldFast l key g1) as [isSensitive g2].
    cbn [fst snd] in E2, Hg2. rewrite <- E2. destruct isSensitive.
    { destruct (IH Hwf Hn (assign key (VString (maskString l)) acc) g2 Hg2
                  (Hnd' _)) as [-> Hok]. split; [|exact Hok].
      rewrite assign_fresh by exact Hfresh. now rewrite <- app_assoc. }
    destruct (Hn1 Hwf1 g2 Hg2) as [E3 Hg3].
    destruct (maskNested l val g2) as [v g3]. cbn [fst snd] in E3, Hg3. subst v.
    destruct (IH Hwf Hn (assign key (maskedValue l val) acc) g3 Hg3 (Hnd' _))
      as [-> Hok]. split; [|exact Hok].
    rewrite assign_fresh by exact Hfresh. now rewrite <- app_assoc.
Qed.

Lemma maskNested_pure (l : Logger) (v : value) : nested_pure l v.
Proof.
  revert v. apply (value_nesting_ind (nested_pure l)); [intros v | intros m IH].
  - destruct v; try exact I; intros _ g Hg; now cbn.
  - intros Hwf g Hg. apply wf_value_map in Hwf as [Hnd Hwf].
    cbn [maskNested maskedValue].
    destruct (bothShown l || Nat.eqb (length m) 0); [now cbn|].
    destruct (maskLoop_pure l m Hwf IH [] g Hg Hnd) as [E Hok].
    destruct (maskLoop l (maskNested l) m [] g) as [masked g']. cbn [fst snd] in *.
    now subst masked.
Qed.

(** In a state that satisfies the invariant, masking a well-formed field map
    yields [maskedFields] and keeps the invariant. *)
Lemma maskSensitiveFieldsFast_pure (l : Logger) (fields : fieldMap) (g : Globals) :
  wf_value (VMap fields) = true -> globals_ok g ->
  (maskSensitiveFieldsFast l fields g).1 = maskedFields l fields
  /\ globals_ok (maskSensitiveFieldsFast l fields g).2.
Proof.
  intros Hwf Hg. destruct (maskNested_pure l (VMap fields) Hwf g Hg) as [E Hok].
  rewrite maskNested_map, maskedValue_map in *.
  destruct (maskSensitiveFieldsFast l fields g) as [masked g']. cbn [fst snd] in *.
  now injection E.
Qed.

(** Masking keeps values well formed. *)
Lemma maskedValue_wf (l : Logger) (v : value) :
  wf_value v = true -> wf_value (maskedValue l v) = true.
Proof.
  revert v.
  apply (value_nesting_ind (fun v => wf_value v = true -> wf_value (maskedValue l v) = true));
    [intros v | intros m IH].
  - destruct v; try exact I; intros H; exact H.
  - intros Hwf. cbn [maskedValue].
    destruct (bothShown l || Nat.eqb (length m) 0); [exact Hwf|].
    apply wf_value_map in Hwf as [Hnd Hwf]. apply wf_value_map.
    rewrite maskedEntry_keys. split; [exact Hnd|].
    apply Forall_forall. intros kv' Hin. apply list_elem_of_In, in_map_iff in Hin.
    destruct Hin as (kv & <- & Hin). apply list_elem_of_In in Hin.
    rewrite Forall_forall in Hwf, IH. unfold maskedEntry.
    destruct (piiClass l kv.1); [reflexivity|].
    destruct (sensitiveClass l kv.1); [reflexivity|]. cbn [snd].
    apply IH; [exact Hin | now apply Hwf].
Qed.

Lemma maskedFields_wf (l : Logger) (m : fieldMap) :
  wf_value (VMap m) = true -> wf_value (VMap (maskedFields l m)) = true.
Proof. intros H. rewrite <- maskedValue_map. now apply maskedValue_wf. Qed.

(** Masking what has been masked changes nothing. *)
Lemma maskedValue_idem (l : Logger) (v : value) :
  maskedValue l (maskedValue l v) = maskedValue l v.
Proof.
  revert v.
  apply (value_nesting_ind (fun v => maskedValue l (maskedValue l v) = maskedValue l v));
    [intros v | intros m IH].
  - destruct v; try exact I; reflexivity.
  - cbn [maskedValue]. destruct (bothShown l || Nat.eqb (length m) 0) eqn:E.
    + cbn [maskedValue]. now rewrite E.
    + cbn [maskedValue]. rewrite length_map, E. f_equal.
      rewrite map_map. apply map_ext_Forall.
      eapply Forall_impl; [exact IH|]. intros kv Hkv. cbn beta in Hkv.
      unfold maskedEntry at 1. rewrite maskedEntry_key.
      unfold maskedEntry. destruct (piiClass l kv.1) eqn:E1; [reflexivity|].
      destruct (sensitiveClass l kv.1) eqn:E2; [reflexivity|]. cbn [snd].
      now rewrite Hkv.
Qed.

Lemma maskedFields_idem (l : Logger) (m : fieldMap) :
  maskedFields l (maskedFields l m) = maskedFields l m.
Proof.
  pose proof (maskedValue_idem l (VMap m)) as H.
  rewrite !maskedValue_map in H. now injection H.
Qed.

End MaskFacts.

Section MaskCacheFacts.
Context {L : Lowering} {O : RangeOrder}.

Lemma maskedValue_cases (l : Logger) (v : value) :
  maskedValue l v
  = match v with VMap nested => VMap (maskedFields l nested) | _ => v end.
Proof. destruct v; try reflexivity. apply maskedValue_map. Qed.

Lemma maskedValue_shown (l : Logger) (v : value) :
  bothShown l = true -> maskedValue l v = v.
Proof. intros Hb. destruct v; try reflexivity. cbn [maskedValue]. now rewrite Hb. Qed.

Lemma bothShown_classes (l : Logger) (k : string) :
  bothShown l = true -> piiClass l k = false /\ sensitiveClass l k = false.
Proof.
  unfold bothShown, piiClass, sensitiveClass.
  destruct (sensitiveMode l), (piiMode l); try discriminate. tauto.
Qed.

(** Every entry of the input has its counterpart in the result. *)
Lemma maskedFields_entry (l : Logger) (fields : fieldMap) (k : string) (v : value) :
  (k, v) ∈ fields ->
  maskedEntry l (maskedValue l) (k, v) ∈ maskedFields l fields.
Proof.
  intros Hin. unfold maskedFields.
  destruct (bothShown l) eqn:Hb; cbn [orb].
  - unfold maskedEntry. cbn [fst snd].
    destruct (bothShown_classes l k Hb) as [-> ->].
    now rewrite maskedValue_shown.
  - destruct fields as [|kv fields]; [inversion Hin|]. cbn [length Nat.eqb].
    apply list_elem_of_In, in_map, list_elem_of_In, Hin.
Qed.

Lemma isSensitiveFieldFast_piiCache (l : Logger) (f : string) (g : Globals) :
  piiCache (fieldCache (isSensitiveFieldFast l f g).2) = piiCache (fieldCache g).
Proof.
  unfold isSensitiveFieldFast. destruct (sensitiveMode l); [|reflexivity]. cbv zeta.
  destruct (sensitiveCache (fieldCache (initializeFieldMaps g)) !! f);
    cbn [snd storeSensitive fieldCache piiCache]; now rewrite initializeFieldMaps_cache.
Qed.

Definition keeps_piiCache (l : Logger) (v : value) : Prop :=
  forall g, piiCache (fieldCache (maskNested l v g).2) = piiCache (fieldCache g).

Lemma maskLoop_piiCache (l : Logger) (fields : fieldMap) :
  piiMode l = SHOW_PII ->
  Forall (fun kv => keeps_piiCache l kv.2) fields ->
  forall (acc : fieldMap) (g : Globals),
    piiCache (fieldCache (maskLoop l (maskNested l) fields acc g).2)
    = piiCache (fieldCache g).
Proof.
  intros Hl. induction fields as [|[key val] rest IH]; intros Hk acc g; [reflexivity|].
  apply Forall_cons in Hk as [Hk1 Hk]. cbn [snd] in Hk1.
  cbn [maskLoop]. rewrite (isPIIFieldFast_shown l key g Hl).
  pose proof (isSensitiveFieldFast_piiCache l key g) as E2.
  destruct (isSensitiveFieldFast l key g) as [isSensitive g2]. cbn [snd] in E2.
  destruct isSensitive; [now rewrite IH|].
  pose proof (Hk1 g2) as E3.
  destruct (maskNested l val g2) as [v g3]. cbn [snd] in E3.
  rewrite IH by exact Hk. congruence.
Qed.

(** While the PII mode shows, the masking pass leaves the PII cache as it
    found it, whatever the state and the field map. *)
Lemma maskNested_piiCache (l : Logger) (v : value) :
  piiMode l = SHOW_PII -> keeps_piiCache l v.
Proof.
  intros Hl. revert v. apply (value_nesting_ind (keeps_piiCache l)); [intros v | intros m IH].
  - destruct v; try exact I; intros g; reflexivity.
  - intros g. cbn [maskNested].
    destruct (bothShown l || Nat.eqb (length m) 0); [reflexivity|].
    pose proof (maskLoop_piiCache l m Hl IH [] g) as E.
    now destruct (maskLoop l (maskNested l) m [] g).
Qed.

Lemma maskSensitiveFieldsFast_piiCache (l : Logger) (fields : fieldMap) (g : Globals) :
  piiMode l = SHOW_PII ->
  piiCache (fieldCache (maskSensitiveFieldsFast l fields g).2) = piiCache (fieldCache g).
Proof.
  intros Hl. pose proof (maskNested_piiCache l (VMap fields) Hl g) as E.
  rewrite maskNested_map in E. now destruct (maskSensitiveFieldsFast l fields g).
Qed.

End MaskCacheFacts.

(** ** Further facts about the classifiers *)

Lemma append_empty_r (a : string) : (a ++ EmptyString)%string = a.
Proof.
  induction a as [|x a IH]; [reflexivity|]. rewrite append_cons. now f_equal.
Qed.

Lemma is_substring_refl (s : string) : is_substring s s.
Proof. exists EmptyString, EmptyString. now rewrite append_nil, append_empty_r. Qed.

Lemma is_substring_trans (a b c : string) :
  is_substring a b -> is_substring b c -> is_substring a c.
Proof.
  intros (x & y & ->) (u & v & ->). exists (u ++ x)%string, (y ++ v)%string.
  now rewrite !append_assoc.
Qed.

Lemma is_substring_len (p s : string) : is_substring p s -> len p <= len s.
Proof. intros (a & b & ->). rewrite !len_append. lia. Qed.

Lemma len_ToUpper (s : string) : len (ToUpper s) = len s.
Proof. unfold ToUpper. induction s as [|c s IH]; cbn; [reflexivity | now f_equal]. Qed.

Section SensitivePolicy.
Context {L : Lowering}.

(** What the sensitive classifier computes, pattern by pattern. *)
Lemma sensitiveVerdict_policy (f : string) :
  sensitiveVerdict f = true <-> sensitivePolicy (ToLower f).
Proof.
  unfold sensitiveVerdict, sensitiveCompute, sensitivePolicy. cbv zeta.
  set (lower := ToLower f). set (m := buildLookup defaultSensitiveFields).
  assert (Hup : forall p, p ∈ ToUpper <$> defaultSensitiveFields ->
                          Contains lower p = false).
  { intros p Hp. apply Contains_upper; [apply ToLower_no_upper|].
    now apply defaultSensitiveFields_upper. }
  destruct (index m lower) eqn:E; cbn [negb].
  - split; [intros _ | reflexivity].
    apply index_buildLookup in E as [E|E].
    + exists lower. split; [exact E | apply is_substring_refl].
    + apply Hup in E.
      rewrite (proj2 (Contains_spec lower lower) (is_substring_refl lower)) in E.
      discriminate.
  - rewrite sensitiveScan_true. split.
    + intros (p & Hin & Hc). apply elem_of_rangeKeys_buildLookup in Hin as [Hin|Hin].
      * exists p. split; [exact Hin | now apply Contains_spec].
      * rewrite (Hup p Hin) in Hc. discriminate.
    + intros (p & Hin & Hs). exists p.
      split; [apply elem_of_rangeKeys_buildLookup; now left | now apply Contains_spec].
Qed.

(** Whatever either classifier accepts contains a key of its lookup map. *)
Lemma piiVerdict_contains (f : string) :
  piiVerdict f = true ->
  exists p, p ∈ defaultPIIFields /\ is_substring p (ToLower f).
Proof.
  rewrite piiVerdict_policyb, (piiPolicyb_spec _ _ atLeastHalfRoundedDownb_spec).
  intros [H|(p & Hin & Hs & _)]; [|now exists p].
  apply index_is_Some, index_buildLookup in H as [H|H].
  - exists (ToLower f). split; [exact H | apply is_substring_refl].
  - apply defaultPIIFields_upper in H.
    now destruct (no_upper_has_upper_ne _ _ (ToLower_no_upper f) H).
Qed.

Lemma defaultSensitiveFields_len (p : string) :
  p ∈ defaultSensitiveFields -> 3 <= len p.
Proof.
  assert (H : forallb (fun p => Nat.leb 3 (len p)) defaultSensitiveFields = true)
    by reflexivity.
  intros Hin. apply list_elem_of_In in Hin.
  rewrite forallb_forall in H. now apply Nat.leb_le, H.
Qed.

Lemma defaultPIIFields_len (p : string) : p ∈ defaultPIIFields -> 2 <= len p.
Proof.
  assert (H : forallb (fun p => Nat.leb 2 (len p)) defaultPIIFields = true)
    by reflexivity.
  intros Hin. apply list_elem_of_In in Hin.
  rewrite forallb_forall in H. now apply Nat.leb_le, H.
Qed.

End SensitivePolicy.

Section MaskInvariant.
Context {L : Lowering} {O : RangeOrder}.

Definition keeps_ok (l : Logger) (v : value) : Prop :=
  forall g, globals_ok g -> globals_ok (maskNested l v g).2.

Lemma maskLoop_ok (l : Logger) (fields : fieldMap) :
  Forall (fun kv => keeps_ok l kv.2) fields ->
  forall (acc : fieldMap) (g : Globals),
    globals_ok g -> globals_ok (maskLoop l (maskNested l) fields acc g).2.
Proof.
  induction fields as [|[key val] rest IH]; intros Hk acc g Hg; [exact Hg|].
  apply Forall_cons in Hk as [Hk1 Hk]. cbn [snd] in Hk1. cbn [maskLoop].
  destruct (isPIIFieldFast_class l key g Hg) as [_ Hg1].
  destruct (isPIIFieldFast l key g) as [isPII g1]. cbn [snd] in Hg1.
  destruct isPII; [now apply IH|].
  destruct (isSensitiveFieldFast_class l key g1 Hg1) as [_ Hg2].
  destruct (isSensitiveFieldFast l key g1) as [isSensitive g2]. cbn [snd] in Hg2.
  destruct isSensitive; [now apply IH|].
  pose proof (Hk1 g2 Hg2) as Hg3.
  destruct (maskNested l val g2) as [v g3]. cbn [snd] in Hg3. now apply IH.
Qed.

Lemma maskNested_ok (l : Logger) (v : value) : keeps_ok l v.
Proof.
  revert v. apply (value_nesting_ind (keeps_ok l)); [intros v | intros m IH].
  - destruct v; try exact I; intros g Hg; exact Hg.
  - intros g Hg. cbn [maskNested].
    destruct (bothShown l || Nat.eqb (length m) 0); [exact Hg|].
    pose proof (maskLoop_ok l m IH [] g Hg) as H.
    now destruct (maskLoop l (maskNested l) m [] g).
Qed.

(** The masking pass keeps the invariant, on every field map. *)
Lemma maskSensitiveFieldsFast_ok (l : Logger) (fields : fieldMap) (g : Globals) :
  globals_ok g -> globals_ok (maskSensitiveFieldsFast l fields g).2.
Proof.
  intros Hg. pose proof (maskNested_ok l (VMap fields) g Hg) as H.
  rewrite maskNested_map in H. now destruct (maskSensitiveFieldsFast l fields g).
Qed.

Lemma runOperation_ok (op : operation) (g : Globals) :
  globals_ok g -> globals_ok (runOperation op g).
Proof.
  intros Hg. destruct op as [|l f|l f|l fields|]; cbn [runOperation].
  - now apply initializeFieldMaps_ok.
  - now apply isPIIFieldFast_class.
  - now apply isSensitiveFieldFast_class.
  - now apply maskSensitiveFieldsFast_ok.
  - now apply ClearFieldCache_ok.
Qed.

Lemma runOperations_ok (ops : list operation) (g : Globals) :
  globals_ok g -> globals_ok (runOperations ops g).
Proof.
  revert g. induction ops as [|op ops IH]; intros g Hg; [exact Hg|].
  cbn [runOperations foldl]. apply IH. now apply runOperation_ok.
Qed.

Lemma initializeFieldMaps_fired (g : Globals) :
  onceInit g = true -> initializeFieldMaps g = g.
Proof. intros H. unfold initializeFieldMaps. now rewrite H. Qed.

Lemma initializeFieldMaps_onceInit (g : Globals) :
  onceInit (initializeFieldMaps g) = true.
Proof. unfold initializeFieldMaps. now destruct (onceInit g) eqn:E. Qed.

Lemma isPIIFieldFast_onceInit (l : Logger) (f : string) (g : Globals) :
  piiMode l = MASK_PII -> onceInit (isPIIFieldFast l f g).2 = true.
Proof.
  intros Hl. unfold isPIIFieldFast. rewrite Hl. cbv zeta.
  destruct (piiCache (fieldCache (initializeFieldMaps g)) !! f);
    cbn [snd storePII onceInit]; apply initializeFieldMaps_onceInit.
Qed.

Lemma isSensitiveFieldFast_onceInit (l : Logger) (f : string) (g : Globals) :
  sensitiveMode l = MASK_SENSITIVE -> onceInit (isSensitiveFieldFast l f g).2 = true.
Proof.
  intros Hl. unfold isSensitiveFieldFast. rewrite Hl. cbv zeta.
  destruct (sensitiveCache (fieldCache (initializeFieldMaps g)) !! f);
    cbn [snd storeSensitive onceInit]; apply initializeFieldMaps_onceInit.
Qed.

End MaskInvariant.

Section CacheGrowth.
Context {L : Lowering} {O : RangeOrder}.

(** The caches of [g] are contained in those of [g']. *)
Definition caches_le (g g' : Globals) : Prop :=
  piiCache (fieldCache g) ⊆ piiCache (fieldCache g')
  /\ sensitiveCache (fieldCache g) ⊆ sensitiveCache (fieldCache g').

Lemma caches_le_refl (g : Globals) : caches_le g g.
Proof. split; reflexivity. Qed.

Lemma caches_le_trans (g1 g2 g3 : Globals) :
  caches_le g1 g2 -> caches_le g2 g3 -> caches_le g1 g3.
Proof. intros [H1 H2] [H3 H4]. split; etransitivity; eassumption. Qed.

Lemma isPIIFieldFast_caches_le (l : Logger) (f : string) (g : Globals) :
  caches_le g (isPIIFieldFast l f g).2.
Proof.
  unfold isPIIFieldFast. destruct (piiMode l); [|apply caches_le_refl]. cbv zeta.
  destruct (piiCache (fieldCache (initializeFieldMaps g)) !! f) eqn:E;
    unfold caches_le; cbn [snd storePII fieldCache piiCache sensitiveCache];
    rewrite ?initializeFieldMaps_cache in *; split; try reflexivity.
  now apply insert_subseteq.
Qed.

Lemma isSensitiveFieldFast_caches_le (l : Logger) (f : string) (g : Globals) :
  caches_le g (isSensitiveFieldFast l f g).2.
Proof.
  unfold isSensitiveFieldFast. destruct (sensitiveMode l); [|apply caches_le_refl].
  cbv zeta.
  destruct (sensitiveCache (fieldCache (initializeFieldMaps g)) !! f) eqn:E;
    unfold caches_le; cbn [snd storeSensitive fieldCache piiCache sensitiveCache];
    rewrite ?initializeFieldMaps_cache in *; split; try reflexivity.
  now apply insert_subseteq.
Qed.

Definition grows_caches (l : Logger) (v : value) : Prop :=
  forall g, caches_le g (maskNested l v g).2.

Lemma maskLoop_caches_le (l : Logger) (fields : fieldMap) :
  Forall (fun kv => grows_caches l kv.2) fields ->
  forall (acc : fieldMap) (g : Globals),
    caches_le g (maskLoop l (maskNested l) fields acc g).2.
Proof.
  induction fields as [|[key val] rest IH]; intros Hk acc g; [apply caches_le_refl|].
  apply Forall_cons in Hk as [Hk1 Hk]. cbn [snd] in Hk1. cbn [maskLoop].
  pose proof (isPIIFieldFast_caches_le l key g) as H1.
  destruct (isPIIFieldFast l key g) as [isPII g1]. cbn [snd] in H1.
  destruct isPII; [eapply caches_le_trans; [exact H1 | now apply IH]|].
  pose proof (isSensitiveFieldFast_caches_le l key g1) as H2.
  destruct (isSensitiveFieldFast l key g1) as [isSensitive g2]. cbn [snd] in H2.
  destruct isSensitive.
  { eapply caches_le_trans; [exact H1|]. eapply caches_le_trans; [exact H2|].
    now apply IH. }
  pose proof (Hk1 g2) as H3.
  destruct (maskNested l val g2) as [v g3]. cbn [snd] in H3.
  eapply caches_le_trans; [exact H1|]. eapply caches_le_trans; [exact H2|].
  eapply caches_le_trans; [exact H3|]. now apply IH.
Qed.

Lemma maskNested_caches_le (l : Logger) (v : value) : grows_caches l v.
Proof.
  revert v. apply (value_nesting_ind (grows_caches l)); [intros v | intros m IH].
  - destruct v; try exact I; intros g; apply caches_le_refl.
  - intros g. cbn [maskNested].
    destruct (bothShown l || Nat.eqb (length m) 0); [apply caches_le_refl|].
    pose proof (maskLoop_caches_le l m IH [] g) as H.
    now destruct (maskLoop l (maskNested l) m [] g).
Qed.

(** Every key the loop visits is in the PII cache afterwards, when the PII
    mode masks. *)
Lemma maskLoop_caches_keys (l : Logger) (fields : fieldMap) (k : string) :
  piiMode l = MASK_PII -> k ∈ fields.*1 ->
  forall (acc : fieldMap) (g : Globals),
    is_Some (piiCache (fieldCache (maskLoop l (maskNested l) fields acc g).2) !! k).
Proof.
  intros Hl. induction fields as [|[key val] rest IH]; intros Hin acc g;
    [inversion Hin|].
  rewrite fmap_cons, elem_of_cons in Hin. cbn [fst] in Hin.
  destruct (decide (k = key)) as [->|Hne].
  - assert (Hafter : forall g1, caches_le (isPIIFieldFast l key g).2 g1 ->
              is_Some (piiCache (fieldCache g1) !! key)).
    { intros g1 [Hle _]. exists (isPIIFieldFast l key g).1.
      eapply lookup_weaken; [|exact Hle]. now apply isPIIFieldFast_stores. }
    apply Hafter. cbn [maskLoop].
    destruct (isPIIFieldFast l key g) as [isPII g1]. cbn [snd].
    destruct isPII; [apply maskLoop_caches_le, Forall_forall; intros;
                      apply maskNested_caches_le|].
    pose proof (isSensitiveFieldFast_caches_le l key g1) as H2.
    destruct (isSensitiveFieldFast l key g1) as [isSensitive g2]. cbn [snd] in H2.
    destruct isSensitive.
    { eapply caches_le_trans; [exact H2|].
      apply maskLoop_caches_le, Forall_forall; intros; apply maskNested_caches_le. }
    pose proof (maskNested_caches_le l val g2) as H3.
    destruct (maskNested l val g2) as [v g3]. cbn [snd] in H3.
    eapply caches_le_trans; [exact H2|]. eapply caches_le_trans; [exact H3|].
    apply maskLoop_caches_le, Forall_forall; intros; apply maskNested_caches_le.
  - destruct Hin as [->|Hin]; [contradiction|]. cbn [maskLoop].
    destruct (isPIIFieldFast l key g) as [isPII g1]. destruct isPII; [now apply IH|].
    destruct (isSensitiveFieldFast l key g1) as [isSensitive g2].
    destruct isSensitive; [now apply IH|].
    destruct (maskNested l val g2) as [v g3]. now apply IH.
Qed.

End CacheGrowth.

(** ** The masking pass on map references *)

Section HeapFacts.
Context {L : Lowering} {O : RangeOrder}.
Import Heap.

(** Every map of [h0] is in [h], with the same entries. *)
Definition heap_agree (h0 h : heap) : Prop :=
  forall p, p ∈ dom h0 -> h !! p = h0 !! p.

Lemma heap_agree_refl (h : heap) : heap_agree h h.
Proof. intros p _. reflexivity. Qed.

Lemma heap_agree_dom (h0 h : heap) (p : loc) :
  heap_agree h0 h -> p ∈ dom h0 -> p ∈ dom h.
Proof.
  intros Ha Hp. apply elem_of_dom. rewrite (Ha p Hp). now apply elem_of_dom.
Qed.

Lemma heap_agree_trans (h0 h1 h2 : heap) :
  heap_agree h0 h1 -> heap_agree h1 h2 -> heap_agree h0 h2.
Proof.
  intros H01 H12 p Hp. rewrite (H12 p (heap_agree_dom h0 h1 p H01 Hp)).
  now apply H01.
Qed.

Lemma heap_agree_assignAt (h0 h : heap) (p : loc) (key : string) (v : rvalue) :
  heap_agree h0 h -> p ∉ dom h0 -> heap_agree h0 (assignAt p key v h).
Proof.
  intros Ha Hp q Hq. unfold assignAt.
  rewrite lookup_alter_ne by (intros ->; contradiction). now apply Ha.
Qed.

Lemma assignAt_lookup (h : heap) (p : loc) (key : string) (v : rvalue)
  (m : list (string * rvalue)) :
  h !! p = Some m -> assignAt p key v h !! p = Some (assign key v m).
Proof. intros H. unfold assignAt. now rewrite lookup_alter_eq, H. Qed.

Lemma assign_keys {V : Type} (key : string) (v : V) (m : list (string * V)) (k : string) :
  k ∈ (assign key v m).*1 <-> k = key \/ k ∈ m.*1.
Proof.
  induction m as [|[k' w] m IH]; cbn [assign].
  - rewrite fmap_cons, elem_of_cons. cbn. rewrite elem_of_nil. tauto.
  - destruct (String.eqb k' key) eqn:E.
    + apply String.eqb_eq in E as ->. rewrite !fmap_cons, !elem_of_cons. cbn. tauto.
    + rewrite !fmap_cons, !elem_of_cons, IH. cbn. tauto.
Qed.

Lemma nestsWithin_agree (h0 h : heap) (depth : nat) (r : option loc) :
  heap_agree h0 h -> nestsWithin h0 depth r = true -> nestsWithin h depth r = true.
Proof.
  intros Ha. revert r. induction depth as [|d IH]; intros [p|]; cbn [nestsWithin];
    try (intros; (reflexivity || discriminate)).
  destruct (h0 !! p) as [entries|] eqn:E; [|discriminate].
  assert (Hp : p ∈ dom h0) by (apply elem_of_dom; eauto).
  rewrite (Ha p Hp), E. rewrite !forallb_forall.
  intros H kv Hin. specialize (H kv Hin). destruct (kv.2); try reflexivity.
  now apply IH.
Qed.

(** What the loop needs of the recursive call: on an input that nests at
    most [depth] levels it returns, and it keeps every map there was. *)
Definition recursion_ok
  (recur : option loc -> Globals -> heap -> option (option loc * Globals * heap))
  (depth : nat) : Prop :=
  forall r g h, nestsWithin h depth r = true ->
    exists r' g' h', recur r g h = Some (r', g', h') /\ heap_agree h h'.

Lemma heap_maskLoop_spec (l : Logger)
  (recur : option loc -> Globals -> heap -> option (option loc * Globals * heap))
  (depth : nat) (h0 : heap) (maskedFields : loc) (rest : list (string * rvalue)) :
  recursion_ok recur depth -> maskedFields ∉ dom h0 ->
  forallb (fun kv => match kv.2 with
                     | RMap r' => nestsWithin h0 depth r'
                     | _ => true
                     end) rest = true ->
  forall (g : Globals) (h : heap) (acc : list (string * rvalue)),
    heap_agree h0 h -> h !! maskedFields = Some acc ->
    exists g' h' acc',
      maskLoop l recur rest maskedFields g h = Some (g', h')
      /\ heap_agree h0 h'
      /\ h' !! maskedFields = Some acc'
      /\ (forall k, k ∈ acc'.*1 <-> k ∈ acc.*1 \/ k ∈ rest.*1).
Proof.
  intros Hrec Hfresh. induction rest as [|[key val] rest IH]; intros Hn g h acc Ha Hacc.
  - exists g, h, acc. cbn [maskLoop]. repeat split; try assumption.
    + tauto.
    + intros [H|H]; [exact H | inversion H].
  - cbn [forallb snd] in Hn. apply andb_true_iff in Hn as [Hn1 Hn].
    assert (Hstep : forall g1 v,
              exists g' h' acc',
                maskLoop l recur rest maskedFields g1 (assignAt maskedFields key v h)
                = Some (g', h')
                /\ heap_agree h0 h'
                /\ h' !! maskedFields = Some acc'
                /\ (forall k, k ∈ acc'.*1 <-> k ∈ acc.*1 \/ k ∈ ((key, val) :: rest).*1)).
    { intros g1 v.
      destruct (IH Hn g1 (assignAt maskedFields key v h) (assign key v acc)
                  (heap_agree_assignAt h0 h _ key v Ha Hfresh)
                  (assignAt_lookup h _ key v acc Hacc))
        as (g' & h' & acc' & E & Ha' & Hacc' & Hk).
      exists g', h', acc'. repeat split; try assumption.
      - intros Hin. apply Hk in Hin. rewrite assign_keys in Hin.
        rewrite fmap_cons, elem_of_cons. cbn. tauto.
      - intros Hin. apply Hk. rewrite assign_keys.
        rewrite fmap_cons, elem_of_cons in Hin. cbn in Hin. tauto. }
    cbn [maskLoop].
    destruct (isPIIFieldFast l key g) as [isPII g1]. destruct isPII; [apply Hstep|].
    destruct (isSensitiveFieldFast l key g1) as [isSensitive g2].
    destruct isSensitive; [apply Hstep|].
    destruct val as [| | | | | |nestedMap]; try apply Hstep.
    destruct (Hrec nestedMap g2 h (nestsWithin_agree h0 h depth nestedMap Ha Hn1))
      as (masked & g3 & h3 & -> & Ha3).
    assert (Hm : maskedFields ∈ dom h) by (apply elem_of_dom; eauto).
    destruct (IH Hn g3 (assignAt maskedFields key (RMap masked) h3)
                (assign key (RMap masked) acc)) as (g' & h' & acc' & E & Ha' & Hacc' & Hk).
    { apply heap_agree_assignAt; [|exact Hfresh].
      now apply (heap_agree_trans h0 h h3). }
    { apply assignAt_lookup. now rewrite (Ha3 _ Hm). }
    exists g', h', acc'. repeat split; try assumption.
    + intros Hin. apply Hk in Hin. rewrite assign_keys in Hin.
      rewrite fmap_cons, elem_of_cons. cbn. tauto.
    + intros Hin. apply Hk. rewrite assign_keys.
      rewrite fmap_cons, elem_of_cons in Hin. cbn in Hin. tauto.
Qed.

(** The outcome of the pass on an input that nests at most [depth] levels. *)
Definition heap_mask_outcome (l : Logger) (fields : option loc) (g : Globals) (h : heap)
  (r : option loc) (g' : Globals) (h' : heap) : Prop :=
  heap_agree h h'
  /\ exists entries,
       entriesOf h fields = Some entries
       /\ if bothShown l || Nat.eqb (length entries) 0
          then r = fields /\ g' = g /\ h' = h
          else exists p masked,
                 r = Some p /\ (p ∉ dom h) /\ r <> fields
                 /\ h' !! p = Some masked
                 /\ (forall k, k ∈ masked.*1 <-> k ∈ entries.*1).

Lemma heap_mask_unfold (fuel : nat) (l : Logger) (fields : option loc)
  (g : Globals) (h : heap) :
  Heap.maskSensitiveFieldsFast (S fuel) l fields g h
  = match entriesOf h fields with
    | None => None
    | Some entries =>
        if bothShown l || Nat.eqb (length entries) 0 then Some (fields, g, h)
        else
          match maskLoop l (Heap.maskSensitiveFieldsFast fuel l) entries
                  (fresh (dom h)) g (<[fresh (dom h) := []]> h) with
          | None => None
          | Some (g', h') => Some (Some (fresh (dom h)), g', h')
          end
    end.
Proof. reflexivity. Qed.

Lemma heap_mask_spec (l : Logger) (depth : nat) :
  forall fields g h,
    nestsWithin h depth fields = true ->
    exists r g' h',
      Heap.maskSensitiveFieldsFast (S depth) l fields g h = Some (r, g', h')
      /\ heap_mask_outcome l fields g h r g' h'.
Proof.
  induction depth as [|d IH]; intros fields g h Hn.
  - destruct fields as [p|]; [discriminate|].
    exists None, g, h. cbn. rewrite orb_true_r.
    split; [reflexivity|]. split; [apply heap_agree_refl|].
    exists []. cbn. rewrite orb_true_r. tauto.
  - destruct fields as [p|].
    2:{ exists None, g, h. cbn. rewrite orb_true_r.
        split; [reflexivity|]. split; [apply heap_agree_refl|].
        exists []. cbn. rewrite orb_true_r. tauto. }
    cbn [nestsWithin] in Hn. destruct (h !! p) as [entries|] eqn:E; [|discriminate].
    rewrite heap_mask_unfold. cbn [entriesOf]. rewrite E.
    destruct (bothShown l || Nat.eqb (length entries) 0) eqn:Hc.
    { exists (Some p), g, h. split; [reflexivity|]. split; [apply heap_agree_refl|].
      exists entries. cbn [entriesOf]. rewrite E, Hc. tauto. }
    set (mf := fresh (dom h)).
    assert (Hfresh : mf ∉ dom h) by apply is_fresh.
    assert (Hrec : recursion_ok (Heap.maskSensitiveFieldsFast (S d) l) d).
    { intros r1 g1 h1 H1. destruct (IH r1 g1 h1 H1) as (r' & g' & h' & E' & Ha & _).
      now exists r', g', h'. }
    destruct (heap_maskLoop_spec l _ d h mf entries Hrec Hfresh Hn g
                (<[mf := []]> h) []) as (g' & h' & acc' & -> & Ha & Hacc & Hk).
    { intros q Hq. rewrite lookup_insert_ne; [reflexivity|]. intros ->. contradiction. }
    { apply lookup_insert_eq. }
    exists (Some mf), g', h'. split; [reflexivity|]. split; [exact Ha|].
    exists entries. cbn [entriesOf]. rewrite E, Hc. split; [reflexivity|].
    exists mf, acc'. repeat split; try assumption.
    + intros [= ->]. apply Hfresh, elem_of_dom. eauto.
    + intros Hin. apply Hk in Hin as [Hin|Hin]; [inversion Hin | exact Hin].
    + intros Hin. apply Hk. now right.
Qed.

End HeapFacts.

Section HeapContents.
Context {L : Lowering} {O : RangeOrder}.
Import Heap.

(** The recursive call keeps the invariant of the package state. *)
Definition recursion_keeps_ok
  (recur : option loc -> Globals -> heap -> option (option loc * Globals * heap))
  : Prop :=
  forall r g h r' g' h',
    recur r g h = Some (r', g', h') -> globals_ok g -> globals_ok g'.

Lemma heap_maskLoop_ok (l : Logger)
  (recur : option loc -> Globals -> heap -> option (option loc * Globals * heap))
  (maskedFields : loc) (rest : list (string * rvalue)) :
  recursion_keeps_ok recur ->
  forall g h g' h',
    maskLoop l recur rest maskedFields g h = Some (g', h') ->
    globals_ok g -> globals_ok g'.
Proof.
  intros Hrec. induction rest as [|[key val] rest IH]; intros g h g' h' E Hg.
  - cbn in E. now injection E as <- <-.
  - cbn [maskLoop] in E.
    destruct (isPIIFieldFast_class l key g Hg) as [_ Hg1].
    destruct (isPIIFieldFast l key g) as [isPII g1]. cbn [snd] in Hg1.
    destruct isPII; [now apply (IH _ _ _ _ E)|].
    destruct (isSensitiveFieldFast_class l key g1 Hg1) as [_ Hg2].
    destruct (isSensitiveFieldFast l key g1) as [isSensitive g2]. cbn [snd] in Hg2.
    destruct isSensitive; [now apply (IH _ _ _ _ E)|].
    destruct val as [| | | | | |nestedMap]; try now apply (IH _ _ _ _ E).
    destruct (recur nestedMap g2 h) as [[[masked g3] h3]|] eqn:Er; [|discriminate].
    apply (IH _ _ _ _ E). now apply (Hrec _ _ _ _ _ _ Er).
Qed.

Lemma heap_mask_ok (fuel : nat) (l : Logger) :
  recursion_keeps_ok (Heap.maskSensitiveFieldsFast fuel l).
Proof.
  induction fuel as [|fuel IH]; intros r g h r' g' h' E Hg; [discriminate|].
  rewrite heap_mask_unfold in E.
  destruct (entriesOf h r) as [entries|]; [|discriminate].
  destruct (bothShown l || Nat.eqb (length entries) 0).
  - now injection E as <- <- <-.
  - destruct (maskLoop l _ entries _ g _) as [[g1 h1]|] eqn:El; [|discriminate].
    injection E as <- <- <-. now apply (heap_maskLoop_ok l _ _ _ IH _ _ _ _ El).
Qed.

(** What the result map holds under the key of an input entry. *)
Definition entry_outcome (l : Logger) (k : string) (v : rvalue)
  (masked : list (string * rvalue)) : Prop :=
  if piiClass l k then (k, RString (piiMaskString l)) ∈ masked
  else if sensitiveClass l k then (k, RString (maskString l)) ∈ masked
  else match v with
       | RMap _ => exists r', (k, RMap r') ∈ masked
       | _ => (k, v) ∈ masked
       end.

Lemma heap_maskLoop_content (l : Logger)
  (recur : option loc -> Globals -> heap -> option (option loc * Globals * heap))
  (depth : nat) (h0 : heap) (maskedFields : loc) (rest : list (string * rvalue)) :
  recursion_ok recur depth -> recursion_keeps_ok recur -> maskedFields ∉ dom h0 ->
  forallb (fun kv => match kv.2 with
                     | RMap r' => nestsWithin h0 depth r'
                     | _ => true
                     end) rest = true ->
  forall (g : Globals) (h : heap) (acc : list (string * rvalue)),
    globals_ok g -> heap_agree h0 h -> h !! maskedFields = Some acc ->
    NoDup (acc.*1 ++ rest.*1) ->
    exists g' h' acc',
      maskLoop l recur rest maskedFields g h = Some (g', h')
      /\ h' !! maskedFields = Some acc'
      /\ (forall e, e ∈ acc -> e ∈ acc')
      /\ (forall k v, (k, v) ∈ rest -> entry_outcome l k v acc').
Proof.
  intros Hrec Hok Hfresh.
  induction rest as [|[key val] rest IH]; intros Hn g h acc Hg Ha Hacc Hnd.
  - exists g, h, acc. cbn [maskLoop]. repeat split; try assumption.
    + tauto.
    + intros k v Hin. inversion Hin.
  - cbn [forallb snd] in Hn. apply andb_true_iff in Hn as [Hn1 Hn].
    rewrite fmap_cons in Hnd. cbn [fst] in Hnd.
    assert (Hkey : key ∉ acc.*1).
    { apply NoDup_app in Hnd as (_ & Hd & _). intros Hin. apply (Hd key Hin). left. }
    assert (Hrest : key ∉ rest.*1).
    { apply NoDup_app in Hnd as (_ & _ & Hd). now apply NoDup_cons in Hd. }
    assert (Hstep : forall g1 h1 x,
              globals_ok g1 -> heap_agree h0 h1 -> h1 !! maskedFields = Some acc ->
              exists g' h' acc',
                maskLoop l recur rest maskedFields g1 (assignAt maskedFields key x h1)
                = Some (g', h')
                /\ h' !! maskedFields = Some acc'
                /\ (forall e, e ∈ acc -> e ∈ acc')
                /\ (key, x) ∈ acc'
                /\ (forall k v, (k, v) ∈ rest -> entry_outcome l k v acc')).
    { intros g1 h1 x Hg1 Ha1 Hacc1.
      destruct (IH Hn g1 (assignAt maskedFields key x h1) (assign key x acc) Hg1
                  (heap_agree_assignAt h0 h1 _ key x Ha1 Hfresh)
                  (assignAt_lookup h1 _ key x acc Hacc1))
        as (g' & h' & acc' & E & Hacc' & Hsub & Hout).
      { rewrite assign_fresh by exact Hkey. rewrite fmap_app, <- List.app_assoc.
        exact Hnd. }
      exists g', h', acc'. rewrite assign_fresh in Hsub by exact Hkey.
      repeat split; try assumption.
      - intros e He. apply Hsub, elem_of_app. now left.
      - apply Hsub, elem_of_app. right. left. }
    assert (Hfinish : forall acc' : list (string * rvalue),
              (forall k v, (k, v) ∈ rest -> entry_outcome l k v acc') ->
              entry_outcome l key val acc' ->
              forall k v, (k, v) ∈ (key, val) :: rest -> entry_outcome l k v acc').
    { intros acc' Hout Hhere k v Hin.
      apply elem_of_cons in Hin as [[= -> ->]|Hin]; [exact Hhere | now apply Hout]. }
    cbn [maskLoop].
    destruct (isPIIFieldFast_class l key g Hg) as [E1 Hg1].
    destruct (isPIIFieldFast l key g) as [isPII g1]. cbn [fst snd] in E1, Hg1.
    destruct isPII.
    { destruct (Hstep g1 h (RString (piiMaskString l)) Hg1 Ha Hacc)
        as (g' & h' & acc' & E & Hacc' & Hsub & Hin & Hout).
      exists g', h', acc'. repeat split; try assumption.
      apply (Hfinish acc' Hout).
      unfold entry_outcome. now rewrite <- E1. }
    destruct (isSensitiveFieldFast_class l key g1 Hg1) as [E2 Hg2].
    destruct (isSensitiveFieldFast l key g1) as [isSensitive g2].
    cbn [fst snd] in E2, Hg2. destruct isSensitive.
    { destruct (Hstep g2 h (RString (maskString l)) Hg2 Ha Hacc)
        as (g' & h' & acc' & E & Hacc' & Hsub & Hin & Hout).
      exists g', h', acc'. repeat split; try assumption.
      apply (Hfinish acc' Hout).
      unfold entry_outcome. now rewrite <- E1, <- E2. }
    assert (Hleaf : forall x, x = val -> (forall r', val <> RMap r') ->
              exists g' h' acc',
                maskLoop l recur rest maskedFields g2 (assignAt maskedFields key x h)
                = Some (g', h')
                /\ h' !! maskedFields = Some acc'
                /\ (forall e, e ∈ acc -> e ∈ acc')
                /\ (forall k v, (k, v) ∈ (key, val) :: rest -> entry_outcome l k v acc')).
    { intros x -> Hnot.
      destruct (Hstep g2 h val Hg2 Ha Hacc)
        as (g' & h' & acc' & E & Hacc' & Hsub & Hin & Hout).
      exists g', h', acc'. repeat split; try assumption.
      apply (Hfinish acc' Hout).
      unfold entry_outcome. rewrite <- E1, <- E2.
      destruct val; try exact Hin. now destruct (Hnot r). }
    destruct val as [| | | | | |nestedMap];
      try (apply Hleaf; [reflexivity | discriminate]).
    destruct (Hrec nestedMap g2 h (nestsWithin_agree h0 h depth nestedMap Ha Hn1))
      as (masked & g3 & h3 & Er & Ha3).
    rewrite Er.
    assert (Hm : maskedFields ∈ dom h) by (apply elem_of_dom; eauto).
    destruct (Hstep g3 h3 (RMap masked) (Hok _ _ _ _ _ _ Er Hg2)
                (heap_agree_trans h0 h h3 Ha Ha3))
      as (g' & h' & acc' & E & Hacc' & Hsub & Hin & Hout).
    { now rewrite (Ha3 _ Hm). }
    exists g', h', acc'. repeat split; try assumption.
    apply (Hfinish acc' Hout).
    unfold entry_outcome. rewrite <- E1, <- E2. now exists masked.
Qed.

End HeapContents.

(** * The claims *)

(** ** Classification of single names *)

(** C1, as stated, fails on the name [strip]: the classifier answers [true]
    (the two-byte pattern [ip] ends the five-byte name and the source compares
    it with the integer quotient 5/2 = 2), while the policy with "at least
    half of the length" rejects the name. *)
Lemma isPIIFieldFast_policy_strip :
  ~ ((isPIIFieldFast maskingLogger "strip" initialGlobals).1 = true
     <-> piiPolicy atLeastHalf (ToLower "strip")).
Proof.
  intros [H _].
  assert (E : (isPIIFieldFast maskingLogger "strip" initialGlobals).1 = true)
    by (vm_compute; reflexivity).
  apply H in E. apply (piiPolicyb_spec _ _ atLeastHalfb_spec) in E.
  vm_compute in E. discriminate.
Qed.

(** C1, amended: under a masking PII mode, in every state of the package that
    satisfies its invariant, [isPIIFieldFast f] answers [true] exactly when the
    folded name is a key of the PII lookup map, or some configured pattern
    occurs in it and the name equals the pattern, or the pattern has at least
    three bytes, or stands at an underscore boundary, or is a prefix or a
    suffix of the name whose length is at least the integer quotient of the
    name's length by two. *)
Theorem isPIIFieldFast_policy {L : Lowering} {O : RangeOrder}
  (l : Logger) (f : string) (g : Globals) :
  piiMode l = MASK_PII -> globals_ok g ->
  ((isPIIFieldFast l f g).1 = true
   <-> piiPolicy atLeastHalfRoundedDown (ToLower f)).
Proof.
  intros Hl Hg. destruct (isPIIFieldFast_masking l f g Hl Hg) as [-> _].
  rewrite piiVerdict_policyb.
  apply (piiPolicyb_spec _ _ atLeastHalfRoundedDownb_spec).
Qed.

Lemma isPIIFieldFast_policy_witness :
  piiMode maskingLogger = MASK_PII /\ globals_ok initialGlobals
  /\ ((isPIIFieldFast maskingLogger "Strip" initialGlobals).1 = true
      <-> piiPolicy atLeastHalfRoundedDown (ToLower "Strip")).
Proof.
  split; [reflexivity|]. split; [apply initialGlobals_ok|].
  apply (isPIIFieldFast_policy maskingLogger "Strip" initialGlobals);
    [reflexivity | apply initialGlobals_ok].
Defined.

(** C3, as stated, fails: under a masking PII mode the name [trip] is
    classified as PII. *)
Lemma isPIIFieldFast_trip_not_false :
  ~ ((isPIIFieldFast maskingLogger "trip" initialGlobals).1 = false).
Proof. vm_compute. discriminate. Qed.

(** C3, amended: under a masking PII mode [isPIIFieldFast "trip"] answers
    [true].  The only configured pattern inside the name is [ip]; it is under
    the three-byte floor, differs from the name, stands at no underscore
    boundary and is no prefix, but it is a suffix whose two bytes are at least
    the quotient 4/2, which the suffix rule accepts. *)
Theorem isPIIFieldFast_trip {O : RangeOrder} (l : Logger) (g : Globals) :
  piiMode l = MASK_PII -> globals_ok g ->
  (isPIIFieldFast l "trip" g).1 = true
  /\ (forall p, p ∈ defaultPIIFields -> is_substring p "trip" -> p = "ip")
  /\ len "ip" < 3
  /\ "trip" <> "ip"
  /\ ~ atUnderscoreBoundary "ip" "trip"
  /\ ~ is_prefix "ip" "trip"
  /\ is_suffix "ip" "trip"
  /\ atLeastHalfRoundedDown (len "ip") (len "trip").
Proof.
  intros Hl Hg. destruct (isPIIFieldFast_masking l "trip" g Hl Hg) as [-> _].
  split; [vm_compute; reflexivity|]. split.
  { intros p Hin Hsub. apply Contains_spec in Hsub. apply list_elem_of_In in Hin.
    assert (H : forallb (fun p => negb (Contains "trip" p) || String.eqb p "ip")
                  defaultPIIFields = true) by (vm_compute; reflexivity).
    rewrite forallb_forall in H. specialize (H p Hin).
    rewrite Hsub in H. now apply String.eqb_eq in H. }
  split; [cbn; lia|]. split; [discriminate|]. split.
  { unfold atUnderscoreBoundary.
    rewrite <- HasPrefix_spec, <- HasSuffix_spec, <- Contains_spec.
    vm_compute. intuition discriminate. }
  split; [rewrite <- HasPrefix_spec; vm_compute; discriminate|].
  split; [now exists "tr"|]. unfold atLeastHalfRoundedDown. cbn. lia.
Qed.

Lemma isPIIFieldFast_trip_witness :
  piiMode maskingLogger = MASK_PII /\ globals_ok initialGlobals
  /\ (isPIIFieldFast maskingLogger "trip" initialGlobals).1 = true.
Proof.
  split; [reflexivity|]. split; [apply initialGlobals_ok|].
  exact (proj1 (isPIIFieldFast_trip maskingLogger initialGlobals eq_refl
                  initialGlobals_ok)).
Defined.

(** C4: under a masking PII mode [description] is not PII (no configured
    pattern passes the acceptance policy), [ip_address] is PII, and [zip] is
    PII already at the exact-match stage. *)
Theorem isPIIFieldFast_examples {O : RangeOrder} (l : Logger) (g : Globals) :
  piiMode l = MASK_PII -> globals_ok g ->
  (isPIIFieldFast l "description" g).1 = false
  /\ ~ piiPolicy atLeastHalfRoundedDown "description"
  /\ (isPIIFieldFast l "ip_address" g).1 = true
  /\ (isPIIFieldFast l "zip" g).1 = true
  /\ index (piiFieldsMap (initializeFieldMaps g)) (ToLower "zip") = true.
Proof.
  intros Hl Hg.
  destruct (isPIIFieldFast_masking l "description" g Hl Hg) as [-> _].
  destruct (isPIIFieldFast_masking l "ip_address" g Hl Hg) as [-> _].
  destruct (isPIIFieldFast_masking l "zip" g Hl Hg) as [-> _].
  destruct (initializeFieldMaps_built g (proj1 Hg)) as (-> & _).
  split; [vm_compute; reflexivity|]. split.
  { rewrite <- (piiPolicyb_spec _ _ atLeastHalfRoundedDownb_spec).
    vm_compute. discriminate. }
  repeat split; vm_compute; reflexivity.
Qed.

Lemma isPIIFieldFast_examples_witness :
  piiMode maskingLogger = MASK_PII /\ globals_ok initialGlobals
  /\ (isPIIFieldFast maskingLogger "description" initialGlobals).1 = false
  /\ (isPIIFieldFast maskingLogger "ip_address" initialGlobals).1 = true
  /\ (isPIIFieldFast maskingLogger "zip" initialGlobals).1 = true.
Proof.
  split; [reflexivity|]. split; [apply initialGlobals_ok|].
  destruct (isPIIFieldFast_examples maskingLogger initialGlobals eq_refl
              initialGlobals_ok) as (H1 & _ & H2 & H3 & _).
  repeat split; assumption.
Defined.

(** C8: classification is deterministic.  Whatever the caches hold, two calls
    of a classifier on one name under one logger, with any classifier calls
    and no cache clear in between, return the same verdict; from one state
    the verdict and the state left behind are the same for every order in
    which the lookup map is visited; and in a state that satisfies the
    invariant the verdict is [piiClass] (respectively [sensitiveClass]), which
    reads the display mode, the name and the pattern lists only. *)
Theorem classification_deterministic {L : Lowering} (O1 O2 O3 : RangeOrder)
  (l : Logger) (f : string) (g : Globals) (between : list call) :
  let first := @isPIIFieldFast L O1 l f g in
  let second := @isPIIFieldFast L O2 l f (@runCalls L O3 between first.2) in
  let firstS := @isSensitiveFieldFast L O1 l f g in
  let secondS := @isSensitiveFieldFast L O2 l f (@runCalls L O3 between firstS.2) in
  second.1 = first.1
  /\ @isPIIFieldFast L O2 l f g = first
  /\ (globals_ok g -> first.1 = piiClass l f)
  /\ secondS.1 = firstS.1
  /\ @isSensitiveFieldFast L O2 l f g = firstS
  /\ (globals_ok g -> firstS.1 = sensitiveClass l f).
Proof.
  cbv zeta. repeat split.
  - destruct (piiMode l) eqn:Hl.
    + pose proof (isPIIFieldFast_stores O1 l f g Hl) as Hs.
      apply (runCalls_keeps O3 between) in Hs.
      now rewrite (isPIIFieldFast_hit O2 l f _ _ Hl Hs).
    + now rewrite !isPIIFieldFast_shown.
  - apply isPIIFieldFast_order.
  - intros Hg. now apply isPIIFieldFast_class.
  - destruct (sensitiveMode l) eqn:Hl.
    + pose proof (isSensitiveFieldFast_stores O1 l f g Hl) as Hs.
      apply (runCalls_keeps O3 between) in Hs.
      now rewrite (isSensitiveFieldFast_hit O2 l f _ _ Hl Hs).
    + now rewrite !isSensitiveFieldFast_shown.
  - apply isSensitiveFieldFast_order.
  - intros Hg. now apply isSensitiveFieldFast_class.
Qed.

(** C10: the upper-case variants in the lookup maps change no verdict.  From
    any state whose lookup maps are in order, each classifier returns the
    same verdict, and leaves the same caches, as it does when the lookup maps
    hold the lower-case patterns only: the folded name has no capital letter,
    while the upper-case form of every default pattern has one. *)
Theorem uppercase_variants_irrelevant {L : Lowering} (O1 O2 : RangeOrder)
  (l : Logger) (f : string) (g : Globals) :
  maps_ok g ->
  (@isPIIFieldFast L O1 l f g).1 = (@isPIIFieldFast L O2 l f (withLowercaseMaps g)).1
  /\ fieldCache (@isPIIFieldFast L O1 l f g).2
     = fieldCache (@isPIIFieldFast L O2 l f (withLowercaseMaps g)).2
  /\ (@isSensitiveFieldFast L O1 l f g).1
     = (@isSensitiveFieldFast L O2 l f (withLowercaseMaps g)).1
  /\ fieldCache (@isSensitiveFieldFast L O1 l f g).2
     = fieldCache (@isSensitiveFieldFast L O2 l f (withLowercaseMaps g)).2
  /\ no_upper (ToLower f) = true
  /\ (forall p, p ∈ defaultPIIFields ++ defaultSensitiveFields ->
                has_upper (ToUpper p) = true).
Proof.
  intros Hm. destruct (initializeFieldMaps_built g Hm) as (Hp & Hs & _ & Hc).
  assert (Hpii : (@isPIIFieldFast L O1 l f g).1 = (@isPIIFieldFast L O2 l f (withLowercaseMaps g)).1
                 /\ fieldCache (@isPIIFieldFast L O1 l f g).2
                    = fieldCache (@isPIIFieldFast L O2 l f (withLowercaseMaps g)).2).
  { unfold isPIIFieldFast. destruct (piiMode l); [|now cbn]. cbv zeta.
    change (initializeFieldMaps (withLowercaseMaps g)) with (withLowercaseMaps g).
    rewrite Hc, Hp. cbn [withLowercaseMaps fieldCache piiFieldsMap].
    destruct (piiCache (fieldCache g) !! f);
      cbn [fst snd storePII fieldCache piiCache sensitiveCache]; [now rewrite Hc|].
    fold (piiCompute O1 (buildLookup defaultPIIFields) f).
    fold (piiCompute O2 (buildLookupLowercase defaultPIIFields) f).
    rewrite (piiCompute_lowercase _ defaultPIIFields_upper O1 O2), Hc. tauto. }
  assert (Hsens : (@isSensitiveFieldFast L O1 l f g).1
                  = (@isSensitiveFieldFast L O2 l f (withLowercaseMaps g)).1
                  /\ fieldCache (@isSensitiveFieldFast L O1 l f g).2
                     = fieldCache (@isSensitiveFieldFast L O2 l f (withLowercaseMaps g)).2).
  { unfold isSensitiveFieldFast. destruct (sensitiveMode l); [|now cbn]. cbv zeta.
    change (initializeFieldMaps (withLowercaseMaps g)) with (withLowercaseMaps g).
    rewrite Hc, Hs. cbn [withLowercaseMaps fieldCache sensitiveFieldsMap].
    destruct (sensitiveCache (fieldCache g) !! f);
      cbn [fst snd storeSensitive fieldCache piiCache sensitiveCache]; [now rewrite Hc|].
    fold (sensitiveCompute O1 (buildLookup defaultSensitiveFields) f).
    fold (sensitiveCompute O2 (buildLookupLowercase defaultSensitiveFields) f).
    rewrite (sensitiveCompute_lowercase _ defaultSensitiveFields_upper O1 O2), Hc. tauto. }
  split; [apply Hpii|]. split; [apply Hpii|]. split; [apply Hsens|].
  split; [apply Hsens|]. split; [apply ToLower_no_upper|].
  intros p Hin. apply elem_of_app in Hin as [Hin|Hin].
  - apply defaultPIIFields_upper. now apply list_elem_of_fmap_2.
  - apply defaultSensitiveFields_upper. now apply list_elem_of_fmap_2.
Qed.

Lemma uppercase_variants_irrelevant_witness :
  maps_ok initialGlobals
  /\ (@isPIIFieldFast asciiLowering listedOrder maskingLogger "IP_Address" initialGlobals).1
     = (@isPIIFieldFast asciiLowering reversedOrder maskingLogger "IP_Address"
          (withLowercaseMaps initialGlobals)).1.
Proof.
  assert (Hm : maps_ok initialGlobals) by discriminate.
  split; [exact Hm|].
  exact (proj1 (uppercase_variants_irrelevant listedOrder reversedOrder maskingLogger
                  "IP_Address" initialGlobals Hm)).
Defined.

(** ** The masking pass on field maps *)

(** C2, as stated, fails on [{"passport": "X1234567"}]: the key is
    PII-classified, the PII mode shows and the sensitive mode masks, and the
    value is replaced all the same, by the generic mask string, because the
    name also contains the sensitive pattern [pass]. *)
Lemma maskSensitiveFieldsFast_showPII_passport :
  piiVerdict "passport" = true
  /\ (maskSensitiveFieldsFast showPIILogger passportFields initialGlobals).1
     = [("passport", VString (maskString showPIILogger))]
  /\ ~ (forall k v, (k, v) ∈ passportFields -> piiVerdict k = true ->
          (k, v) ∈ (maskSensitiveFieldsFast showPIILogger passportFields initialGlobals).1).
Proof.
  split; [vm_compute; reflexivity|]. split; [vm_compute; reflexivity|].
  intros H.
  assert (Hin : ("passport", VString "X1234567") ∈ passportFields) by left.
  apply H in Hin; [|vm_compute; reflexivity].
  vm_compute in Hin. apply list_elem_of_In in Hin. cbn in Hin.
  destruct Hin as [Hin|[]]. discriminate.
Qed.

(** C2, amended: when the PII mode shows and the sensitive mode masks, the
    masking pass treats a PII-classified key like any other key.  The value
    of every sensitive-classified key, PII-classified or not, is replaced by
    the generic mask string; the value of every other key is kept when it is
    not a nested [map[string]any] and replaced by the masked nested map when
    it is; the key set is kept; and the PII cache is left as it was. *)
Theorem maskSensitiveFieldsFast_showPII {L : Lowering} {O : RangeOrder}
  (l : Logger) (fields : fieldMap) (g : Globals) :
  piiMode l = SHOW_PII -> sensitiveMode l = MASK_SENSITIVE ->
  wf_value (VMap fields) = true -> globals_ok g ->
  (forall k v, (k, v) ∈ fields -> sensitiveVerdict k = true ->
     (k, VString (maskString l)) ∈ (maskSensitiveFieldsFast l fields g).1)
  /\ (forall k v, (k, v) ∈ fields -> sensitiveVerdict k = false ->
        (forall nested, v <> VMap nested) ->
        (k, v) ∈ (maskSensitiveFieldsFast l fields g).1)
  /\ (forall k nested, (k, VMap nested) ∈ fields -> sensitiveVerdict k = false ->
        (k, VMap (maskedFields l nested)) ∈ (maskSensitiveFieldsFast l fields g).1)
  /\ (maskSensitiveFieldsFast l fields g).1.*1 = fields.*1
  /\ piiCache (fieldCache (maskSensitiveFieldsFast l fields g).2)
     = piiCache (fieldCache g).
Proof.
  intros Hp Hs Hwf Hg.
  destruct (maskSensitiveFieldsFast_pure l fields g Hwf Hg) as [-> _].
  assert (Hentry : forall k v, (k, v) ∈ fields ->
            (k, if sensitiveVerdict k then VString (maskString l) else maskedValue l v)
            ∈ maskedFields l fields).
  { intros k v Hin. apply (maskedFields_entry l) in Hin.
    unfold maskedEntry, piiClass, sensitiveClass in Hin. rewrite Hp, Hs in Hin.
    cbn [fst snd] in Hin. now destruct (sensitiveVerdict k). }
  split; [|split; [|split; [|split]]].
  - intros k v Hin Hv. apply Hentry in Hin. now rewrite Hv in Hin.
  - intros k v Hin Hv Hleaf. apply Hentry in Hin.
    now rewrite Hv, maskedValue_leaf in Hin.
  - intros k nested Hin Hv. apply Hentry in Hin.
    now rewrite Hv, maskedValue_map in Hin.
  - apply maskedFields_keys.
  - now apply maskSensitiveFieldsFast_piiCache.
Qed.

Lemma maskSensitiveFieldsFast_showPII_witness :
  piiMode showPIILogger = SHOW_PII /\ sensitiveMode showPIILogger = MASK_SENSITIVE
  /\ wf_value (VMap labelsFields) = true /\ globals_ok initialGlobals
  /\ piiCache (fieldCache (maskSensitiveFieldsFast showPIILogger labelsFields initialGlobals).2)
     = piiCache (fieldCache initialGlobals).
Proof.
  split; [reflexivity|]. split; [reflexivity|]. split; [reflexivity|].
  split; [apply initialGlobals_ok|].
  exact (proj2 (proj2 (proj2 (proj2
           (maskSensitiveFieldsFast_showPII showPIILogger labelsFields initialGlobals
              eq_refl eq_refl eq_refl initialGlobals_ok))))).
Defined.

(** C6: masking is idempotent.  For a well-formed (hence acyclic) field map
    and a fixed logger, masking the result of a masking pass again, in the
    state the first pass left or in any other state that satisfies the
    invariant, returns that result unchanged at every nesting level. *)
Theorem maskSensitiveFieldsFast_idempotent {L : Lowering} {O : RangeOrder}
  (l : Logger) (fields : fieldMap) (g g' : Globals) :
  wf_value (VMap fields) = true -> globals_ok g -> globals_ok g' ->
  (maskSensitiveFieldsFast l (maskSensitiveFieldsFast l fields g).1
     (maskSensitiveFieldsFast l fields g).2).1
  = (maskSensitiveFieldsFast l fields g).1
  /\ (maskSensitiveFieldsFast l (maskSensitiveFieldsFast l fields g).1 g').1
     = (maskSensitiveFieldsFast l fields g).1.
Proof.
  intros Hwf Hg Hg'.
  destruct (maskSensitiveFieldsFast_pure l fields g Hwf Hg) as [E Hok].
  rewrite E. pose proof (maskedFields_wf l fields Hwf) as Hwf'.
  destruct (maskSensitiveFieldsFast_pure l _ _ Hwf' Hok) as [-> _].
  destruct (maskSensitiveFieldsFast_pure l _ _ Hwf' Hg') as [-> _].
  now rewrite maskedFields_idem.
Qed.

Lemma maskSensitiveFieldsFast_idempotent_witness :
  wf_value (VMap exampleFields) = true /\ globals_ok initialGlobals
  /\ (maskSensitiveFieldsFast maskingLogger
        (maskSensitiveFieldsFast maskingLogger exampleFields initialGlobals).1
        (maskSensitiveFieldsFast maskingLogger exampleFields initialGlobals).2).1
     = (maskSensitiveFieldsFast maskingLogger exampleFields initialGlobals).1.
Proof.
  split; [reflexivity|]. split; [apply initialGlobals_ok|].
  exact (proj1 (maskSensitiveFieldsFast_idempotent maskingLogger exampleFields
                  initialGlobals initialGlobals eq_refl initialGlobals_ok
                  initialGlobals_ok)).
Defined.

(** C7: with both modes masking, the pass maps
    [{"user": {"email": "a@b.com", "id": 7}, "note": "hi"}] to a map of the
    same shape in which the value under [email] is the PII mask string and the
    values under [id] and [note] are unchanged. *)
Theorem maskSensitiveFieldsFast_example {O : RangeOrder} (l : Logger) (g : Globals) :
  piiMode l = MASK_PII -> sensitiveMode l = MASK_SENSITIVE -> globals_ok g ->
  (maskSensitiveFieldsFast l exampleFields g).1
  = [ ("user", VMap [("email", VString (piiMaskString l)); ("id", VInt 7)]);
      ("note", VString "hi") ].
Proof.
  intros Hp Hs Hg.
  destruct (maskSensitiveFieldsFast_pure l exampleFields g eq_refl Hg) as [-> _].
  assert (Hb : bothShown l = false) by (unfold bothShown; now rewrite Hs).
  assert (E1 : piiVerdict "user" = false) by (vm_compute; reflexivity).
  assert (E2 : sensitiveVerdict "user" = false) by (vm_compute; reflexivity).
  assert (E3 : piiVerdict "email" = true) by (vm_compute; reflexivity).
  assert (E4 : piiVerdict "id" = false) by (vm_compute; reflexivity).
  assert (E5 : sensitiveVerdict "id" = false) by (vm_compute; reflexivity).
  assert (E6 : piiVerdict "note" = false) by (vm_compute; reflexivity).
  assert (E7 : sensitiveVerdict "note" = false) by (vm_compute; reflexivity).
  unfold maskedFields, exampleFields. rewrite Hb.
  cbn [orb length Nat.eqb map]. unfold maskedEntry. cbn [fst snd maskedValue].
  rewrite Hb. cbn [orb length Nat.eqb map]. unfold maskedEntry. cbn [fst snd].
  unfold piiClass, sensitiveClass. rewrite Hp, Hs.
  rewrite E1, E2, E3, E4, E5, E6, E7. reflexivity.
Qed.

Lemma maskSensitiveFieldsFast_example_witness :
  piiMode maskingLogger = MASK_PII /\ sensitiveMode maskingLogger = MASK_SENSITIVE
  /\ globals_ok initialGlobals
  /\ (maskSensitiveFieldsFast maskingLogger exampleFields initialGlobals).1
     = [ ("user", VMap [("email", VString "***PII***"); ("id", VInt 7)]);
         ("note", VString "hi") ].
Proof.
  split; [reflexivity|]. split; [reflexivity|]. split; [apply initialGlobals_ok|].
  exact (maskSensitiveFieldsFast_example maskingLogger initialGlobals
           eq_refl eq_refl initialGlobals_ok).
Defined.

(** C9: a value under a key that is classified neither PII nor sensitive is
    recursed into exactly when it is a [map[string]any].  The final [else]
    branch calls the masking pass on such a map and stores its result; it
    stores every other value as it is, a [map[string]string] included; and
    the result of the pass holds, under that key, the masked nested map in
    the first case and the value itself in the second. *)
Theorem maskSensitiveFieldsFast_unclassified {L : Lowering} {O : RangeOrder}
  (l : Logger) (fields : fieldMap) (g : Globals) (k : string) (v : value) :
  wf_value (VMap fields) = true -> globals_ok g -> (k, v) ∈ fields ->
  piiClass l k = false -> sensitiveClass l k = false ->
  (forall g',
     maskNested l v g'
     = match v with
       | VMap nested =>
           let '(masked, g'') := maskSensitiveFieldsFast l nested g' in
           (VMap masked, g'')
       | _ => (v, g')
       end)
  /\ (k, match v with
         | VMap nested => VMap (maskedFields l nested)
         | _ => v
         end) ∈ (maskSensitiveFieldsFast l fields g).1.
Proof.
  intros Hwf Hg Hin Hp Hs. split.
  - intros g'. destruct v; try reflexivity. apply maskNested_map.
  - destruct (maskSensitiveFieldsFast_pure l fields g Hwf Hg) as [-> _].
    apply (maskedFields_entry l) in Hin. unfold maskedEntry in Hin.
    cbn [fst snd] in Hin. now rewrite Hp, Hs, maskedValue_cases in Hin.
Qed.

Lemma maskSensitiveFieldsFast_unclassified_witness :
  wf_value (VMap labelsFields) = true /\ globals_ok initialGlobals
  /\ ("labels", VStringMap [("password", "hunter2")]) ∈ labelsFields
  /\ piiClass maskingLogger "labels" = false
  /\ sensitiveClass maskingLogger "labels" = false
  /\ ("labels", VStringMap [("password", "hunter2")])
     ∈ (maskSensitiveFieldsFast maskingLogger labelsFields initialGlobals).1.
Proof.
  split; [reflexivity|]. split; [apply initialGlobals_ok|]. split; [left|].
  split; [vm_compute; reflexivity|]. split; [vm_compute; reflexivity|].
  assert (Hin : ("labels", VStringMap [("password", "hunter2")]) ∈ labelsFields)
    by left.
  assert (Hp : piiClass maskingLogger "labels" = false) by (vm_compute; reflexivity).
  assert (Hs : sensitiveClass maskingLogger "labels" = false)
    by (vm_compute; reflexivity).
  exact (proj2 (maskSensitiveFieldsFast_unclassified maskingLogger labelsFields
                  initialGlobals "labels" (VStringMap [("password", "hunter2")])
                  eq_refl initialGlobals_ok Hin Hp Hs)).
Defined.

(** * Further properties of the code *)

(** ** The package state *)

(** X1: from program start, whatever classifier calls, masking passes,
    initialisations and cache clears run, the package state satisfies the
    invariant: the lookup maps are unbuilt or exactly the built ones, and
    every cached verdict is the one the patterns give. *)
Theorem runOperations_invariant {L : Lowering} {O : RangeOrder} (ops : list operation) :
  globals_ok (runOperations ops initialGlobals).
Proof. apply runOperations_ok, initialGlobals_ok. Qed.

(** X2: [initializeFieldMaps] builds each lookup map with exactly the
    patterns of its list and their upper-case forms as keys, each mapped to
    [true]; it leaves the caches alone, and running it again changes nothing. *)
Theorem initializeFieldMaps_lookup (g : Globals) (k : string) :
  maps_ok g ->
  piiFieldsMap (initializeFieldMaps g) !! k
  = (if decide (k ∈ defaultPIIFields ∨ k ∈ ToUpper <$> defaultPIIFields)
     then Some true else None)
  /\ sensitiveFieldsMap (initializeFieldMaps g) !! k
     = (if decide (k ∈ defaultSensitiveFields ∨ k ∈ ToUpper <$> defaultSensitiveFields)
        then Some true else None)
  /\ fieldCache (initializeFieldMaps g) = fieldCache g
  /\ initializeFieldMaps (initializeFieldMaps g) = initializeFieldMaps g.
Proof.
  intros Hm. destruct (initializeFieldMaps_built g Hm) as (-> & -> & Ho & Hc).
  rewrite !buildLookup_lookup. repeat split; [exact Hc|].
  now apply initializeFieldMaps_fired.
Qed.

Lemma initializeFieldMaps_lookup_witness :
  maps_ok initialGlobals
  /\ piiFieldsMap (initializeFieldMaps initialGlobals) !! "EMAIL" = Some true
  /\ piiFieldsMap (initializeFieldMaps initialGlobals) !! "Email" = None.
Proof.
  assert (Hm : maps_ok initialGlobals) by discriminate.
  split; [exact Hm|]. split.
  - rewrite (proj1 (initializeFieldMaps_lookup initialGlobals "EMAIL" Hm)).
    vm_compute. reflexivity.
  - rewrite (proj1 (initializeFieldMaps_lookup initialGlobals "Email" Hm)).
    vm_compute. reflexivity.
Defined.

(** X3: after [ClearFieldCache] a classifier under a masking mode answers with
    the verdict the patterns give, whatever the caches held before the clear,
    also a wrong entry; the clear leaves the lookup maps and the once-flag as
    they were. *)
Theorem ClearFieldCache_recomputes {L : Lowering} {O : RangeOrder}
  (l : Logger) (f : string) (g : Globals) :
  maps_ok g ->
  (piiMode l = MASK_PII ->
   (isPIIFieldFast l f (ClearFieldCache g)).1 = piiVerdict f)
  /\ (sensitiveMode l = MASK_SENSITIVE ->
      (isSensitiveFieldFast l f (ClearFieldCache g)).1 = sensitiveVerdict f)
  /\ piiFieldsMap (ClearFieldCache g) = piiFieldsMap g
  /\ sensitiveFieldsMap (ClearFieldCache g) = sensitiveFieldsMap g
  /\ onceInit (ClearFieldCache g) = onceInit g.
Proof.
  intros Hm.
  assert (Hok : globals_ok (ClearFieldCache g)).
  { split; [exact Hm|].
    split; intros f' b H; cbn in H; rewrite lookup_empty in H; discriminate. }
  split; [|split; [|repeat split]].
  - intros Hl. exact (proj1 (isPIIFieldFast_masking l f _ Hl Hok)).
  - intros Hl. exact (proj1 (isSensitiveFieldFast_masking l f _ Hl Hok)).
Qed.

Lemma ClearFieldCache_recomputes_witness :
  maps_ok staleGlobals
  /\ (isPIIFieldFast maskingLogger "note" staleGlobals).1 = true
  /\ (isPIIFieldFast maskingLogger "note" (ClearFieldCache staleGlobals)).1 = false.
Proof.
  assert (Hm : maps_ok staleGlobals) by (intros _; split; reflexivity).
  split; [exact Hm|]. split; [vm_compute; reflexivity|].
  rewrite (proj1 (ClearFieldCache_recomputes maskingLogger "note" staleGlobals Hm)
             eq_refl).
  vm_compute. reflexivity.
Defined.

(** ** The classifiers *)

(** X4: under a masking sensitive mode, in a state that satisfies the
    invariant, [isSensitiveFieldFast f] answers [true] exactly when some
    pattern of [defaultSensitiveFields] occurs in the folded name; there is
    no length or boundary condition. *)
Theorem isSensitiveFieldFast_policy {L : Lowering} {O : RangeOrder}
  (l : Logger) (f : string) (g : Globals) :
  sensitiveMode l = MASK_SENSITIVE -> globals_ok g ->
  ((isSensitiveFieldFast l f g).1 = true <-> sensitivePolicy (ToLower f)).
Proof.
  intros Hl Hg. destruct (isSensitiveFieldFast_masking l f g Hl Hg) as [-> _].
  apply sensitiveVerdict_policy.
Qed.

Lemma isSensitiveFieldFast_policy_witness :
  sensitiveMode maskingLogger = MASK_SENSITIVE /\ globals_ok initialGlobals
  /\ ((isSensitiveFieldFast maskingLogger "User_Password_Hash" initialGlobals).1 = true
      <-> sensitivePolicy (ToLower "User_Password_Hash")).
Proof.
  split; [reflexivity|]. split; [apply initialGlobals_ok|].
  exact (isSensitiveFieldFast_policy maskingLogger "User_Password_Hash"
           initialGlobals eq_refl initialGlobals_ok).
Defined.

(** X5: the sensitive classifier over-matches upwards: when a name is
    classified sensitive, so is every name whose folding contains the
    folding of that name. *)
Theorem isSensitiveFieldFast_monotone {L : Lowering} {O : RangeOrder}
  (l : Logger) (f f' : string) (g g' : Globals) :
  sensitiveMode l = MASK_SENSITIVE -> globals_ok g -> globals_ok g' ->
  is_substring (ToLower f) (ToLower f') ->
  (isSensitiveFieldFast l f g).1 = true ->
  (isSensitiveFieldFast l f' g').1 = true.
Proof.
  intros Hl Hg Hg' Hsub.
  destruct (isSensitiveFieldFast_masking l f g Hl Hg) as [-> _].
  destruct (isSensitiveFieldFast_masking l f' g' Hl Hg') as [-> _].
  rewrite !sensitiveVerdict_policy. intros (p & Hin & Hp). exists p.
  split; [exact Hin | now apply (is_substring_trans p (ToLower f))].
Qed.

Lemma isSensitiveFieldFast_monotone_witness :
  sensitiveMode maskingLogger = MASK_SENSITIVE /\ globals_ok initialGlobals
  /\ is_substring (ToLower "pin") (ToLower "Shipping_Method")
  /\ (isSensitiveFieldFast maskingLogger "pin" initialGlobals).1 = true
  /\ (isSensitiveFieldFast maskingLogger "Shipping_Method" initialGlobals).1 = true.
Proof.
  assert (Hs : is_substring (ToLower "pin") (ToLower "Shipping_Method"))
    by (exists "ship", "g_method"; reflexivity).
  assert (Hp : (isSensitiveFieldFast maskingLogger "pin" initialGlobals).1 = true)
    by (vm_compute; reflexivity).
  split; [reflexivity|]. split; [apply initialGlobals_ok|]. split; [exact Hs|].
  split; [exact Hp|].
  exact (isSensitiveFieldFast_monotone maskingLogger "pin" "Shipping_Method"
           initialGlobals initialGlobals eq_refl initialGlobals_ok
           initialGlobals_ok Hs Hp).
Defined.

(** X6: short names are never classified: a name whose folding has fewer
    than two bytes, the empty name included, is not PII, and one whose folding
    has fewer than three bytes is not sensitive, under every display mode. *)
Theorem short_names_unclassified {L : Lowering} {O : RangeOrder}
  (l : Logger) (f : string) (g : Globals) :
  globals_ok g ->
  (len (ToLower f) < 2 -> (isPIIFieldFast l f g).1 = false)
  /\ (len (ToLower f) < 3 -> (isSensitiveFieldFast l f g).1 = false).
Proof.
  intros Hg. split; intros Hlen.
  - destruct (isPIIFieldFast_class l f g Hg) as [-> _]. unfold piiClass.
    destruct (piiMode l); [|reflexivity].
    destruct (piiVerdict f) eqn:E; [|reflexivity].
    apply piiVerdict_contains in E as (p & Hin & Hs).
    apply defaultPIIFields_len in Hin. apply is_substring_len in Hs. lia.
  - destruct (isSensitiveFieldFast_class l f g Hg) as [-> _]. unfold sensitiveClass.
    destruct (sensitiveMode l); [|reflexivity].
    destruct (sensitiveVerdict f) eqn:E; [|reflexivity].
    apply sensitiveVerdict_policy in E as (p & Hin & Hs).
    apply defaultSensitiveFields_len in Hin. apply is_substring_len in Hs. lia.
Qed.

Lemma short_names_unclassified_witness :
  globals_ok initialGlobals
  /\ (isPIIFieldFast maskingLogger "" initialGlobals).1 = false
  /\ (isSensitiveFieldFast maskingLogger "" initialGlobals).1 = false.
Proof.
  split; [apply initialGlobals_ok|].
  destruct (short_names_unclassified maskingLogger "" initialGlobals
              initialGlobals_ok) as [H1 H2].
  split; [apply H1 | apply H2]; cbn; lia.
Defined.

(** X7: the caches are keyed by the name as written, but a verdict depends
    on the folded name only: in states that satisfy the invariant two names
    with the same folding get the same verdict from each classifier. *)
Theorem classification_by_folded_name {L : Lowering} {O : RangeOrder}
  (l : Logger) (f f' : string) (g g' : Globals) :
  globals_ok g -> globals_ok g' -> ToLower f = ToLower f' ->
  (isPIIFieldFast l f g).1 = (isPIIFieldFast l f' g').1
  /\ (isSensitiveFieldFast l f g).1 = (isSensitiveFieldFast l f' g').1.
Proof.
  intros Hg Hg' E.
  destruct (isPIIFieldFast_class l f g Hg) as [-> _].
  destruct (isPIIFieldFast_class l f' g' Hg') as [-> _].
  destruct (isSensitiveFieldFast_class l f g Hg) as [-> _].
  destruct (isSensitiveFieldFast_class l f' g' Hg') as [-> _].
  unfold piiClass, sensitiveClass, piiVerdict, sensitiveVerdict, piiCompute,
    sensitiveCompute. now rewrite E.
Qed.

Lemma classification_by_folded_name_witness :
  globals_ok initialGlobals
  /\ ToLower "Password" = ToLower "PASSWORD"
  /\ (isSensitiveFieldFast maskingLogger "Password" initialGlobals).1
     = (isSensitiveFieldFast maskingLogger "PASSWORD" initialGlobals).1.
Proof.
  split; [apply initialGlobals_ok|]. split; [reflexivity|].
  exact (proj2 (classification_by_folded_name maskingLogger "Password" "PASSWORD"
                  initialGlobals initialGlobals initialGlobals_ok
                  initialGlobals_ok eq_refl)).
Defined.

(** X8: a classifier call settles: the same call made again in the state the
    first one left returns the same verdict and leaves that state unchanged,
    from every state and under every mode. *)
Theorem classifier_call_settles {L : Lowering} {O : RangeOrder}
  (l : Logger) (f : string) (g : Globals) :
  isPIIFieldFast l f (isPIIFieldFast l f g).2 = isPIIFieldFast l f g
  /\ isSensitiveFieldFast l f (isSensitiveFieldFast l f g).2
     = isSensitiveFieldFast l f g.
Proof.
  split.
  - destruct (piiMode l) eqn:Hl; [|now rewrite !isPIIFieldFast_shown].
    rewrite (isPIIFieldFast_hit O l f _ _ Hl (isPIIFieldFast_stores O l f g Hl)).
    rewrite initializeFieldMaps_fired by now apply isPIIFieldFast_onceInit.
    now destruct (isPIIFieldFast l f g).
  - destruct (sensitiveMode l) eqn:Hl; [|now rewrite !isSensitiveFieldFast_shown].
    rewrite (isSensitiveFieldFast_hit O l f _ _ Hl
               (isSensitiveFieldFast_stores O l f g Hl)).
    rewrite initializeFieldMaps_fired by now apply isSensitiveFieldFast_onceInit.
    now destruct (isSensitiveFieldFast l f g).
Qed.

(** X9: the footprint of a classifier call: [isPIIFieldFast f] changes no
    entry of the PII cache other than that of [f] and leaves the sensitive
    cache as it was; [isSensitiveFieldFast f] likewise, the other way round. *)
Theorem classifier_call_footprint {L : Lowering} {O : RangeOrder}
  (l : Logger) (f f' : string) (g : Globals) :
  f' <> f ->
  piiCache (fieldCache (isPIIFieldFast l f g).2) !! f' = piiCache (fieldCache g) !! f'
  /\ sensitiveCache (fieldCache (isPIIFieldFast l f g).2) = sensitiveCache (fieldCache g)
  /\ sensitiveCache (fieldCache (isSensitiveFieldFast l f g).2) !! f'
     = sensitiveCache (fieldCache g) !! f'
  /\ piiCache (fieldCache (isSensitiveFieldFast l f g).2) = piiCache (fieldCache g).
Proof.
  intros Hne. split; [|split; [|split]].
  - unfold isPIIFieldFast. destruct (piiMode l); [|reflexivity]. cbv zeta.
    destruct (piiCache (fieldCache (initializeFieldMaps g)) !! f);
      cbn [snd storePII fieldCache piiCache]; rewrite initializeFieldMaps_cache;
      [reflexivity|]. now rewrite lookup_insert_ne by congruence.
  - unfold isPIIFieldFast. destruct (piiMode l); [|reflexivity]. cbv zeta.
    destruct (piiCache (fieldCache (initializeFieldMaps g)) !! f);
      cbn [snd storePII fieldCache sensitiveCache]; now rewrite initializeFieldMaps_cache.
  - unfold isSensitiveFieldFast. destruct (sensitiveMode l); [|reflexivity]. cbv zeta.
    destruct (sensitiveCache (fieldCache (initializeFieldMaps g)) !! f);
      cbn [snd storeSensitive fieldCache sensitiveCache];
      rewrite initializeFieldMaps_cache; [reflexivity|].
    now rewrite lookup_insert_ne by congruence.
  - apply isSensitiveFieldFast_piiCache.
Qed.

Lemma classifier_call_footprint_witness :
  "note" <> "email"
  /\ piiCache (fieldCache (isPIIFieldFast maskingLogger "email" staleGlobals).2) !! "note"
     = Some true.
Proof.
  assert (Hne : "note" <> "email") by discriminate.
  split; [exact Hne|].
  rewrite (proj1 (classifier_call_footprint maskingLogger "email" "note"
                    staleGlobals Hne)).
  reflexivity.
Defined.

(** ** The masking pass *)



(** X11: the pass fills the PII cache.  When the PII mode masks, in a state
    that satisfies the invariant, every top-level key of the map is in the PII
    cache afterwards, with the verdict the patterns give, and no entry that
    either cache held before is lost or changed. *)
Theorem maskSensitiveFieldsFast_fills_cache {L : Lowering} {O : RangeOrder}
  (l : Logger) (fields : fieldMap) (g : Globals) (k : string) :
  piiMode l = MASK_PII -> globals_ok g -> k ∈ fields.*1 ->
  piiCache (fieldCache (maskSensitiveFieldsFast l fields g).2) !! k
  = Some (piiVerdict k)
  /\ piiCache (fieldCache g) ⊆ piiCache (fieldCache (maskSensitiveFieldsFast l fields g).2)
  /\ sensitiveCache (fieldCache g)
     ⊆ sensitiveCache (fieldCache (maskSensitiveFieldsFast l fields g).2).
Proof.
  intros Hl Hg Hin.
  pose proof (maskSensitiveFieldsFast_ok l fields g Hg) as Hok.
  pose proof (maskNested_caches_le l (VMap fields) g) as Hle.
  rewrite maskNested_map in Hle.
  assert (Hsome : is_Some
            (piiCache (fieldCache (maskSensitiveFieldsFast l fields g).2) !! k)).
  { unfold maskSensitiveFieldsFast.
    assert (Hb : bothShown l = false)
      by (unfold bothShown; rewrite Hl; now destruct (sensitiveMode l)).
    rewrite Hb. destruct fields as [|kv fields]; [inversion Hin|].
    cbn [orb length Nat.eqb]. now apply maskLoop_caches_keys. }
  destruct (maskSensitiveFieldsFast l fields g) as [masked g']. cbn [snd] in *.
  destruct Hsome as [b Hb]. split; [|exact Hle].
  rewrite Hb. f_equal. exact (proj1 (proj2 Hok) k b Hb).
Qed.

Lemma maskSensitiveFieldsFast_fills_cache_witness :
  piiMode maskingLogger = MASK_PII /\ globals_ok initialGlobals
  /\ "note" ∈ exampleFields.*1
  /\ piiCache (fieldCache (maskSensitiveFieldsFast maskingLogger exampleFields
                             initialGlobals).2) !! "note"
     = Some (piiVerdict "note").
Proof.
  assert (Hin : "note" ∈ exampleFields.*1) by (right; left).
  split; [reflexivity|]. split; [apply initialGlobals_ok|]. split; [exact Hin|].
  exact (proj1 (maskSensitiveFieldsFast_fills_cache maskingLogger exampleFields
                  initialGlobals "note" eq_refl initialGlobals_ok Hin)).
Defined.

(** X12: the pass on map references.  On an input whose maps nest at most
    [depth] levels (an acyclic input), the pass returns with [depth + 1] levels
    of recursion available, and every map that existed before the call has
    the entries it had.  When both modes show, or the input has no entry, it
    returns the reference it was given and changes neither heap nor package
    state; otherwise it returns a reference to a map that did not exist
    before the call, different from the input, whose keys are those of the
    input. *)
Theorem maskSensitiveFieldsFast_by_reference {L : Lowering} {O : RangeOrder}
  (l : Logger) (depth : nat) (fields : option Heap.loc) (g : Globals) (h : Heap.heap) :
  Heap.nestsWithin h depth fields = true ->
  exists r g' h' entries,
    Heap.maskSensitiveFieldsFast (S depth) l fields g h = Some (r, g', h')
    /\ Heap.entriesOf h fields = Some entries
    /\ (forall p, p ∈ dom h -> h' !! p = h !! p)
    /\ (bothShown l || Nat.eqb (length entries) 0 = true ->
        r = fields /\ g' = g /\ h' = h)
    /\ (bothShown l || Nat.eqb (length entries) 0 = false ->
        exists p masked,
          r = Some p /\ (p ∉ dom h) /\ r <> fields
          /\ h' !! p = Some masked
          /\ (forall k, k ∈ masked.*1 <-> k ∈ entries.*1)).
Proof.
  intros Hn. destruct (heap_mask_spec l depth fields g h Hn)
    as (r & g' & h' & E & Ha & entries & He & Hcase).
  exists r, g', h', entries. split; [exact E|]. split; [exact He|].
  split; [exact Ha|].
  destruct (bothShown l || Nat.eqb (length entries) 0);
    split; (discriminate || (intros _; exact Hcase)).
Qed.

Lemma maskSensitiveFieldsFast_by_reference_witness :
  Heap.nestsWithin Heap.exampleHeap 2 (Some 1%positive) = true
  /\ exists r g' h' entries,
       Heap.maskSensitiveFieldsFast 3 maskingLogger (Some 1%positive) initialGlobals
         Heap.exampleHeap = Some (r, g', h')
       /\ Heap.entriesOf Heap.exampleHeap (Some 1%positive) = Some entries
       /\ (forall p, p ∈ dom Heap.exampleHeap -> h' !! p = Heap.exampleHeap !! p).
Proof.
  split; [reflexivity|].
  destruct (maskSensitiveFieldsFast_by_reference maskingLogger 2 (Some 1%positive)
              initialGlobals Heap.exampleHeap eq_refl)
    as (r & g' & h' & entries & E & He & Hf & _).
  exists r, g', h', entries. repeat split; assumption.
Defined.

(** X13: what the result map holds, with maps as references.  For an entry
    of an input map with pairwise distinct keys, in a state that satisfies the
    invariant and with at least one mode masking: under a PII-classified key
    the new map holds the PII mask string; under a key that is only
    sensitive-classified, the generic mask string; and under a key that is
    neither, a value that is not a [map[string]any] is stored as it is, so a
    [map[string]string] or a slice in the result is the very object of the
    input, shared and not copied. *)
Theorem maskSensitiveFieldsFast_shares_leaves {L : Lowering} {O : RangeOrder}
  (l : Logger) (depth : nat) (p : Heap.loc) (entries : list (string * Heap.rvalue))
  (g : Globals) (h : Heap.heap) (k : string) (v : Heap.rvalue) :
  Heap.nestsWithin h depth (Some p) = true -> globals_ok g ->
  h !! p = Some entries -> NoDup entries.*1 -> bothShown l = false ->
  (k, v) ∈ entries ->
  exists p' g' h' masked,
    Heap.maskSensitiveFieldsFast (S depth) l (Some p) g h = Some (Some p', g', h')
    /\ h' !! p' = Some masked
    /\ (piiClass l k = true -> (k, Heap.RString (piiMaskString l)) ∈ masked)
    /\ (piiClass l k = false -> sensitiveClass l k = true ->
        (k, Heap.RString (maskString l)) ∈ masked)
    /\ (piiClass l k = false -> sensitiveClass l k = false ->
        (forall r, v <> Heap.RMap r) -> (k, v) ∈ masked).
Proof.
  intros Hn Hg Hp Hnd Hb Hin.
  destruct depth as [|d]; [discriminate|].
  cbn [Heap.nestsWithin] in Hn. rewrite Hp in Hn.
  rewrite heap_mask_unfold. cbn [Heap.entriesOf]. rewrite Hp, Hb.
  destruct entries as [|kv entries]; [inversion Hin|]. cbn [orb length Nat.eqb].
  set (mf := fresh (dom h)).
  assert (Hfresh : mf ∉ dom h) by apply is_fresh.
  assert (Hrec : recursion_ok (Heap.maskSensitiveFieldsFast (S d) l) d).
  { intros r1 g1 h1 H1.
    destruct (heap_mask_spec l d r1 g1 h1 H1) as (r' & g' & h' & E' & Ha & _).
    now exists r', g', h'. }
  destruct (heap_maskLoop_content l _ d h mf (kv :: entries) Hrec
              (heap_mask_ok (S d) l) Hfresh Hn g (<[mf := []]> h) [] Hg)
    as (g' & h' & masked & -> & Hm & _ & Hout).
  { intros q Hq. rewrite lookup_insert_ne; [reflexivity|]. intros ->. contradiction. }
  { apply lookup_insert_eq. }
  { exact Hnd. }
  exists mf, g', h', masked. split; [reflexivity|]. split; [exact Hm|].
  specialize (Hout k v Hin). unfold entry_outcome in Hout.
  split; [|split].
  - intros E. now rewrite E in Hout.
  - intros E1 E2. now rewrite E1, E2 in Hout.
  - intros E1 E2 Hleaf. rewrite E1, E2 in Hout.
    destruct v; try exact Hout. now destruct (Hleaf r).
Qed.

Lemma maskSensitiveFieldsFast_shares_leaves_witness :
  Heap.nestsWithin Heap.labelsHeap 1 (Some 1%positive) = true
  /\ globals_ok initialGlobals
  /\ exists p' g' h' masked,
       Heap.maskSensitiveFieldsFast 2 maskingLogger (Some 1%positive) initialGlobals
         Heap.labelsHeap = Some (Some p', g', h')
       /\ h' !! p' = Some masked
       /\ ("labels", Heap.RStringMap 7%positive) ∈ masked.
Proof.
  split; [reflexivity|]. split; [apply initialGlobals_ok|].
  assert (Hnd : NoDup ["labels"; "password"]).
  { apply distinct_NoDup. reflexivity. }
  assert (Hin : ("labels", Heap.RStringMap 7%positive)
                ∈ [("labels", Heap.RStringMap 7%positive);
                   ("password", Heap.RString "hunter2")]) by left.
  destruct (maskSensitiveFieldsFast_shares_leaves maskingLogger 1 1%positive _
              initialGlobals Heap.labelsHeap "labels" (Heap.RStringMap 7%positive)
              eq_refl initialGlobals_ok eq_refl Hnd eq_refl Hin)
    as (p' & g' & h' & masked & E & Hm & _ & _ & Hleaf).
  exists p', g', h', masked. split; [exact E|]. split; [exact Hm|].
  apply Hleaf; [vm_compute; reflexivity | vm_compute; reflexivity | discriminate].
Defined.

